(** * THREE.Terrain: a shallow embedding of the heightmap generators

    The development follows the three source files of the library:

    - the Worley module (distance metrics, Poisson-disk sampling),
    - [THREE.Terrain.js] (DiamondSquare, MultiPass, heightmap import/export),
    - [src/core.js] (the [fromArray1D] vertex-buffer helper).

    Conventions of the embedding.

    - A JavaScript number is an exact rational ([Q]); integers that the code
      uses as indices and loop counters are [Z].
    - A JavaScript array used through [a[i]] and [a[i] = v] only is a finite
      map from indices ([gmap Z]); an array whose length matters is a [list].
    - [Math.random()] is a stream [random : nat -> Q]; the state carries the
      number of draws made so far.
    - The transcendental part of [Math] ([sqrt], [cos], [sin], [PI]) is a
      parameter of the sections that use it.
    - A computation ends in [Ret v], in [Raise] (a [TypeError], or the use of
      an [undefined] element as a number) or in [OutOfFuel] (the iteration
      budget handed to a loop was too small). *)

From Stdlib Require Import ZArith QArith Qround Qabs Qminmax Lia Lqa.
From stdpp Require Import base option list gmap.

Open Scope Z_scope.

(** ** Outcomes and loops *)

Inductive outcome (A : Type) : Type :=
| Ret (a : A)
| Raise
| OutOfFuel.
Arguments Ret {A} a.
Arguments Raise {A}.
Arguments OutOfFuel {A}.

#[global] Instance outcome_ret : MRet outcome := λ A a, Ret a.
#[global] Instance outcome_bind : MBind outcome := λ A B f m,
  match m with
  | Ret a => f a
  | Raise => Raise
  | OutOfFuel => OutOfFuel
  end.

(** What the body of a loop asks for: another iteration, or [break]. *)
Inductive flow (S : Type) : Type :=
| Continue (s : S)
| Break (s : S).
Arguments Continue {S} s.
Arguments Break {S} s.

(** [while (cond) { body }]: the condition is tested first, and one unit of
    fuel is spent per execution of the body. *)
Fixpoint while_loop {S : Type} (fuel : nat) (cond : S → bool)
    (body : S → outcome (flow S)) (s : S) : outcome S :=
  match fuel with
  | O => if cond s then OutOfFuel else Ret s
  | S fuel' =>
      if cond s then
        match body s with
        | Ret (Continue s') => while_loop fuel' cond body s'
        | Ret (Break s') => Ret s'
        | Raise => Raise
        | OutOfFuel => OutOfFuel
        end
      else Ret s
  end.

(** [for (x = init; cond(x); x = next(x)) { body }]. *)
Definition for_loop {S : Type} (fuel : nat) (init : Z) (cond : Z → bool)
    (next : Z → Z) (body : Z → S → outcome (flow S)) (s : S) : outcome S :=
  r ← while_loop fuel (λ p, cond p.1)
        (λ p, f ← body p.1 p.2;
              match f with
              | Continue s' => Ret (Continue (next p.1, s'))
              | Break s' => Ret (Break (p.1, s'))
              end)
        (init, s);
  Ret r.2.

(** Comparison of numbers, as booleans. *)
Definition Qltb (a b : Q) : bool := negb (Qle_bool b a).
Definition Qleb (a b : Q) : bool := Qle_bool a b.

(** [Math.round]: the nearest integer, halves going up. *)
Definition Math_round (q : Q) : Z := Qfloor (q + (1 # 2)).

(** [Math.floor]. *)
Definition Math_floor (q : Q) : Z := Qfloor q.


(** ** The Worley module: distance metrics *)

Module Vector2.
(** [THREE.Vector2], reduced to its coordinates. *)
Record t : Type := mk { x : Q; y : Q }.

(** Two points are the same point when their coordinates are the same
    numbers. *)
Definition same (a b : t) : Prop := (x a == x b)%Q ∧ (y a == y b)%Q.
End Vector2.

Section Metrics.
Open Scope Q_scope.



End Metrics.

(** ** The Worley module: Poisson-disk sampling *)

(** The variables of [PoissonDisks] that its loop updates: the background
    grid, the active list, the accepted points, the iteration counter, and
    the number of draws taken from [Math.random]. *)
Record PoissonState : Type := mkPoissonState {
  grid : gmap Z (gmap Z Vector2.t);
  processList : list Vector2.t;
  samplePoints : list Vector2.t;
  count : Z;
  draws : nat
}.

Section PoissonDisks.
Variable Math_sqrt Math_cos Math_sin : Q → Q.
Variable Math_PI : Q.
Variable random : nat → Q.

Open Scope Q_scope.

(** [arr.splice(start, 1)]: the removed elements (at most one) and what is
    left of the array. A negative [start] counts from the end, and a
    [start] past the end removes nothing. *)
Definition splice1 (arr : list Vector2.t) (start : Z)
    : option Vector2.t * list Vector2.t :=
  let len := Z.of_nat (length arr) in
  let from :=
    if (start <? 0)%Z then Z.max (len + start) 0 else Z.min start len in
  (arr !! Z.to_nat from, delete (Z.to_nat from) arr).

(** [arr.splice(Math.floor(Math.random() * arr.length), 1)[0]]: the element
    read is [undefined] ([None]) when nothing was removed. *)
Definition removeAndReturnRandomElement (arr : list Vector2.t) (n : nat)
    : option Vector2.t * list Vector2.t * nat :=
  let r := splice1 arr (Math_floor (random n * inject_Z (Z.of_nat (length arr)))) in
  (r.1, r.2, S n).

Definition putInGrid (grid : gmap Z (gmap Z Vector2.t)) (point : Vector2.t)
    (cellSize : Q) : gmap Z (gmap Z Vector2.t) :=
  let gx := Math_floor (Vector2.x point / cellSize) in
  let gy := Math_floor (Vector2.y point / cellSize) in
  let grid := match grid !! gx with
              | None => <[gx := ∅]> grid
              | Some _ => grid
              end in
  <[gx := <[gy := point]> (default ∅ (grid !! gx))]> grid.

Definition inRectangle (point : Vector2.t) (width height : Z) : bool :=
  Qleb 0 (Vector2.x point) &&
  Qleb 0 (Vector2.y point) &&
  Qleb (Vector2.x point) (inject_Z (width + 1)) &&
  Qleb (Vector2.y point) (inject_Z (height + 1)).

(** The two nested loops run over the three columns and the three rows
    around the cell of [point]; the [return true] inside them is the
    short cut of [existsb]. *)
Definition inNeighborhood (grid : gmap Z (gmap Z Vector2.t))
    (point : Vector2.t) (minDist cellSize : Q) : bool :=
  let gx := Math_floor (Vector2.x point / cellSize) in
  let gy := Math_floor (Vector2.y point / cellSize) in
  existsb (λ x,
    existsb (λ y,
      negb (Z.eqb x gx) && negb (Z.eqb y gy) &&
      match grid !! x with
      | None => false
      | Some col =>
          match col !! y with
          | None => false
          | Some _ =>
              let cx := inject_Z x * cellSize in
              let cy := inject_Z y * cellSize in
              Qltb (Math_sqrt ((Vector2.x point - cx) * (Vector2.x point - cx) +
                               (Vector2.y point - cy) * (Vector2.y point - cy)))
                   minDist
          end
      end)
      [gy - 1; gy; gy + 1]%Z)
    [gx - 1; gx; gx + 1]%Z.

(** The radius is drawn first, the angle second. *)
Definition generateRandomPointAround (point : Vector2.t) (minDist : Q)
    (n : nat) : Vector2.t * nat :=
  let radius := minDist * (random n + 1) in
  let angle := 2 * Math_PI * random (S n) in
  (Vector2.mk (Vector2.x point + radius * Math_cos angle)
              (Vector2.y point + radius * Math_sin angle),
   S (S n)).

(** [numPoints || Math.floor(Math.sqrt(width * height * 0.2)) || 1]. *)
Definition PoissonDisks_numPoints (width height numPoints : Z) : Z :=
  if (numPoints =? 0)%Z then
    let d := Math_floor (Math_sqrt (inject_Z width * inject_Z height * 0.2)) in
    if (d =? 0)%Z then 1%Z else d
  else numPoints.

(** [minDist], whatever the caller passed for it. *)
Definition PoissonDisks_minDist (width height numPoints : Z) : Q :=
  let minDist := Math_sqrt ((inject_Z width + inject_Z height) * 2.5) in
  if Qltb (inject_Z numPoints * 0.67) minDist
  then inject_Z numPoints * 0.67 else minDist.

Definition PoissonDisks_cellSize (minDist : Q) : Q :=
  let cellSize := minDist / Math_sqrt 2 in
  if Qltb cellSize 2 then 2 else cellSize.

(** One candidate around [point]: the body of the inner [for] loop. *)
Definition PoissonDisks_candidate (width height numPoints : Z)
    (minDist cellSize : Q) (point : option Vector2.t) (st : PoissonState)
    : outcome (flow PoissonState) :=
  match point with
  | None => Raise
  | Some p =>
      let '(newPoint, n) := generateRandomPointAround p minDist (draws st) in
      if inRectangle newPoint width height &&
         negb (inNeighborhood (grid st) newPoint minDist cellSize)
      then
        let st' := {| grid := putInGrid (grid st) newPoint cellSize;
                      processList := processList st ++ [newPoint];
                      samplePoints := samplePoints st ++ [newPoint];
                      count := count st;
                      draws := n |} in
        if (numPoints <=? Z.of_nat (length (samplePoints st')))%Z
        then Ret (Break st') else Ret (Continue st')
      else
        Ret (Continue {| grid := grid st;
                         processList := processList st;
                         samplePoints := samplePoints st;
                         count := count st;
                         draws := n |})
  end.

(** One removal from the active list: the body of the [while] loop. The
    inner loop has its own budget, [numPoints] iterations being all it can
    make. *)
Definition PoissonDisks_round (width height numPoints : Z)
    (minDist cellSize : Q) (st : PoissonState) : outcome (flow PoissonState) :=
  let '(point, rest, n) :=
    removeAndReturnRandomElement (processList st) (draws st) in
  let st := {| grid := grid st;
               processList := rest;
               samplePoints := samplePoints st;
               count := count st;
               draws := n |} in
  st ← for_loop (Z.to_nat numPoints) 0 (λ i, (i <? numPoints)%Z) Z.succ
         (λ _, PoissonDisks_candidate width height numPoints minDist cellSize point)
         st;
  if (numPoints <=? Z.of_nat (length (samplePoints st)))%Z then Ret (Break st)
  else
    let st := {| grid := grid st;
                 processList := processList st;
                 samplePoints := samplePoints st;
                 count := (count st + 1)%Z;
                 draws := draws st |} in
    if (numPoints * numPoints <? count st)%Z then Ret (Break st)
    else Ret (Continue st).

(** The state in which the [while] loop starts. *)
Definition PoissonDisks_start (width height : Z) (cellSize : Q) (n : nat)
    : PoissonState :=
  let firstPoint := Vector2.mk (random n * inject_Z width)
                               (random (S n) * inject_Z height) in
  {| grid := putInGrid ∅ firstPoint cellSize;
     processList := [firstPoint];
     samplePoints := [firstPoint];
     count := 0;
     draws := S (S n) |}.

(** The [while] loop, run from the start state; [fuel] bounds the number of
    removals. *)
Definition PoissonDisks_loop (fuel : nat) (width height numPoints : Z)
    (n : nat) : outcome PoissonState :=
  let numPoints := PoissonDisks_numPoints width height numPoints in
  let minDist := PoissonDisks_minDist width height numPoints in
  let cellSize := PoissonDisks_cellSize minDist in
  while_loop fuel
    (λ st, negb (Nat.eqb (length (processList st)) 0))
    (PoissonDisks_round width height numPoints minDist cellSize)
    (PoissonDisks_start width height cellSize n).

(** [THREE.Terrain.Worley.PoissonDisks(width, height, numPoints)]: the
    points, and the number of draws made. *)
Definition PoissonDisks (fuel : nat) (width height numPoints : Z) (n : nat)
    : outcome (list Vector2.t * nat) :=
  st ← PoissonDisks_loop fuel width height numPoints n;
  Ret (samplePoints st, draws st).
End PoissonDisks.

(** ** THREE.Terrain.js: options and the scratch heightmap *)

(** The fields of the [options] object that the generators read or write. *)
Record Options : Type := mkOptions {
  easing : Q → Q;
  maxHeight : Q;
  minHeight : Q;
  xSegments : Z;
  ySegments : Z
}.

Definition set_maxHeight (options : Options) (v : Q) : Options :=
  {| easing := easing options; maxHeight := v; minHeight := minHeight options;
     xSegments := xSegments options; ySegments := ySegments options |}.

Definition set_minHeight (options : Options) (v : Q) : Options :=
  {| easing := easing options; maxHeight := maxHeight options; minHeight := v;
     xSegments := xSegments options; ySegments := ySegments options |}.

(** Modelled from the spec: [THREE.Math.clamp] belongs to the three.js host
    library, not to this repository; a value is clamped to the band between
    the two bounds, as three.js does it: [(x < a) ? a : ((x > b) ? b : x)]. *)
Definition clamp (x a b : Q) : Q :=
  if Qltb x a then a else if Qltb b x then b else x.

(** [heightmap[i][j]] read as a number: a missing row is a [TypeError], and a
    missing element would enter the arithmetic as [undefined]. *)
Definition hm_get (heightmap : gmap Z (gmap Z Q)) (i j : Z) : outcome Q :=
  match heightmap !! i with
  | None => Raise
  | Some row => match row !! j with
                | None => Raise
                | Some v => Ret v
                end
  end.

(** [heightmap[i][j] = v]: a missing row is a [TypeError]. *)
Definition hm_set (heightmap : gmap Z (gmap Z Q)) (i j : Z) (v : Q)
    : outcome (gmap Z (gmap Z Q)) :=
  match heightmap !! i with
  | None => Raise
  | Some row => Ret (<[i := <[j := v]> row]> heightmap)
  end.

(** The element at [(i, j)], when there is one. *)
Definition hm_lookup (heightmap : gmap Z (gmap Z Q)) (i j : Z) : option Q :=
  heightmap !! i ≫= λ row, row !! j.

(** The variables of the displacement loop of [DiamondSquare]. *)
Record DSState : Type := mkDSState {
  heightmap : gmap Z (gmap Z Q);
  smoothing : Q;
  rng : nat
}.

(** ** THREE.Terrain.js: DiamondSquare *)

Section DiamondSquare.
Variable random : nat → Q.

(** [segments]: the loop [for (n = 1; Math.pow(2, n) < segments; n++) {}]
    and the assignment after it. The loop makes fewer than [segments]
    iterations, which is its budget. *)
Definition DiamondSquare_segments (options : Options) : outcome Z :=
  let segments := Z.max (xSegments options) (ySegments options) + 1 in
  n ← while_loop (Z.to_nat segments) (λ n, 2 ^ n <? segments)
        (λ n, Ret (Continue (n + 1))) 1;
  Ret (2 ^ n).

(** The zero-filled scratch heightmap. *)
Definition DiamondSquare_init (segments : Z) : outcome (gmap Z (gmap Z Q)) :=
  for_loop (Z.to_nat (segments + 1)) 0 (λ i, i <=? segments) Z.succ
    (λ i heightmap,
       let heightmap := <[i := ∅]> heightmap in
       heightmap ←
         for_loop (Z.to_nat (segments + 1)) 0 (λ j, j <=? segments) Z.succ
           (λ j heightmap,
              heightmap ← hm_set heightmap i j 0%Q;
              Ret (Continue heightmap))
           heightmap;
       Ret (Continue heightmap))
    ∅.

Open Scope Q_scope.

(** The body of the square step at the cell whose corner is [(x, y)]. *)
Definition DiamondSquare_square (options : Options) (half whole : Z)
    (x y : Z) (st : DSState) : outcome DSState :=
  let d := easing options (random (rng st)) * smoothing st * 2 - smoothing st in
  a ← hm_get (heightmap st) x y;
  b ← hm_get (heightmap st) (x + whole) y;
  c ← hm_get (heightmap st) x (y + whole);
  e ← hm_get (heightmap st) (x + whole) (y + whole);
  let avg := a + b + c + e in
  let avg := avg * 0.25 in
  h ← hm_set (heightmap st) (x + half) (y + half) (avg + d);
  Ret {| heightmap := h; smoothing := smoothing st; rng := S (rng st) |}.

(** The body of the diamond step at [(x, y)], the two mirror writes
    included. [%] is the remainder of JavaScript, [Z.rem]. *)
Definition DiamondSquare_diamond (options : Options) (segments size half : Z)
    (x y : Z) (st : DSState) : outcome DSState :=
  let d := easing options (random (rng st)) * smoothing st * 2 - smoothing st in
  a ← hm_get (heightmap st) (Z.rem (x - half + size) size) y;
  b ← hm_get (heightmap st) (Z.rem (x + half) size) y;
  c ← hm_get (heightmap st) x (Z.rem (y + half) size);
  e ← hm_get (heightmap st) x (Z.rem (y - half + size) size);
  let avg := a + b + c + e in
  let avg := avg * 0.25 in
  let avg := avg + d in
  h ← hm_set (heightmap st) x y avg;
  h ← (if (x =? 0)%Z then hm_set h segments y avg else Ret h);
  h ← (if (y =? 0)%Z then hm_set h x segments avg else Ret h);
  Ret {| heightmap := h; smoothing := smoothing st; rng := S (rng st) |}.

(** One level of detail: the body of the loop over [l]. *)
Definition DiamondSquare_level (options : Options) (segments : Z)
    (l : Z) (st : DSState) : outcome DSState :=
  let size := (segments + 1)%Z in
  let half := Math_round (inject_Z l * 0.5) in
  let whole := Math_round (inject_Z l) in
  let st := {| heightmap := heightmap st;
               smoothing := smoothing st / 2;
               rng := rng st |} in
  (* square *)
  st ← for_loop (Z.to_nat segments) 0 (λ x, (x <? segments)%Z) (λ x, (x + whole)%Z)
         (λ x st,
            st ← for_loop (Z.to_nat segments) 0 (λ y, (y <? segments)%Z)
                   (λ y, (y + whole)%Z)
                   (λ y st,
                      st ← DiamondSquare_square options half whole x y st;
                      Ret (Continue st))
                   st;
            Ret (Continue st))
         st;
  (* diamond *)
  for_loop (Z.to_nat segments) 0 (λ x, (x <? segments)%Z) (λ x, (x + half)%Z)
    (λ x st,
       st ← for_loop (Z.to_nat segments) (Z.rem (x + half) l)
              (λ y, (y <? segments)%Z) (λ y, (y + l)%Z)
              (λ y st,
                 st ← DiamondSquare_diamond options segments size half x y st;
                 Ret (Continue st))
              st;
       Ret (Continue st))
    st.

(** The displacement loop, [for (var l = segments; l >= 2; l /= 2)]. Every
    [l] it visits is a power of two, so that [l / 2] is the exact half. *)
Definition DiamondSquare_generate (options : Options) (segments : Z)
    (heightmap : gmap Z (gmap Z Q)) (n : nat) : outcome DSState :=
  for_loop (Z.to_nat segments) segments (λ l, (2 <=? l)%Z) (λ l, (l / 2)%Z)
    (λ l st,
       st ← DiamondSquare_level options segments l st;
       Ret (Continue st))
    {| heightmap := heightmap;
       smoothing := maxHeight options - minHeight options;
       rng := n |}.

(** [g[k].z += v]: there is no vertex to update when [k] is not an index
    of [g]. *)
Definition add_z (g : list Q) (k : Z) (v : Q) : outcome (list Q) :=
  if (k <? 0)%Z then Raise
  else match g !! Z.to_nat k with
       | None => Raise
       | Some z => Ret (<[Z.to_nat k := z + v]> g)
       end.

(** The last loop nest: the scratch heightmap is added to the vertices. *)
Definition DiamondSquare_apply (options : Options)
    (heightmap : gmap Z (gmap Z Q)) (g : list Q) : outcome (list Q) :=
  let xl := (xSegments options + 1)%Z in
  let yl := (ySegments options + 1)%Z in
  for_loop (Z.to_nat xl) 0 (λ i, (i <? xl)%Z) Z.succ
    (λ i g,
       g ← for_loop (Z.to_nat yl) 0 (λ j, (j <? yl)%Z) Z.succ
             (λ j g,
                h ← hm_get heightmap i j;
                g ← add_z g (j * xl + i)
                      (clamp h (minHeight options) (maxHeight options));
                Ret (Continue g))
             g;
       Ret (Continue g))
    g.

(** The scratch heightmap as it is when the displacement loop is over,
    with its side [segments]. *)
Definition DiamondSquare_scratch (options : Options) (n : nat)
    : outcome (Z * DSState) :=
  segments ← DiamondSquare_segments options;
  heightmap ← DiamondSquare_init segments;
  st ← DiamondSquare_generate options segments heightmap n;
  Ret (segments, st).

(** [THREE.Terrain.DiamondSquare(g, options)]: [g] is the list of the [z]
    of the vertices, and [n] the number of draws made before the call. *)
Definition DiamondSquare (g : list Q) (options : Options) (n : nat)
    : outcome (list Q * nat) :=
  r ← DiamondSquare_scratch options n;
  g ← DiamondSquare_apply options (heightmap r.2) g;
  Ret (g, rng r.2).
End DiamondSquare.

(** ** THREE.Terrain.js: MultiPass *)

(** A heightmap method, as [MultiPass] calls it: it may change the vertices
    and the shared [options], it draws from [Math.random], and it may
    throw. *)
Definition Method : Type :=
  list Q → Options → nat → outcome (list Q * Options * nat).

(** An element of [passes]; [granularity] may be missing. *)
Record Pass : Type := mkPass {
  method : Method;
  granularity : option Q
}.

(** The variables that the loop of [MultiPass] updates. *)
Record MPState : Type := mkMPState {
  mp_g : list Q;
  mp_options : Options;
  mp_rng : nat
}.

Section MultiPass.
Open Scope Q_scope.

Definition GRANULARITY : Q := 0.1.

(** The body of the loop of [MultiPass] for [passes[i]]. *)
Definition MultiPass_pass (passes : list Pass) (i : Z) (st : MPState)
    : outcome (flow MPState) :=
  match passes !! Z.to_nat i with
  | None => Raise
  | Some pass =>
      let options := mp_options st in
      let options :=
        if negb (i =? 0)%Z then
          let gran := default 1 (granularity pass) in
          let move := (maxHeight options - minHeight options) * 0.5
                      * GRANULARITY * gran in
          let options := set_maxHeight options (maxHeight options - move) in
          set_minHeight options (minHeight options + move)
        else options in
      r ← method pass (mp_g st) options (mp_rng st);
      Ret (Continue {| mp_g := r.1.1; mp_options := r.1.2; mp_rng := r.2 |})
  end.

(** [THREE.Terrain.MultiPass(g, options, passes)]: the vertices and the
    shared [options] object as the call leaves them. *)
Definition MultiPass (g : list Q) (options : Options) (passes : list Pass)
    (n : nat) : outcome (list Q * Options * nat) :=
  let maxHeight0 := maxHeight options in
  let minHeight0 := minHeight options in
  let l := Z.of_nat (length passes) in
  st ← for_loop (length passes) 0 (λ i, (i <? l)%Z) Z.succ
         (MultiPass_pass passes)
         {| mp_g := g; mp_options := options; mp_rng := n |};
  let options := set_maxHeight (mp_options st) maxHeight0 in
  let options := set_minHeight options minHeight0 in
  Ret (mp_g st, options, mp_rng st).

(** [DiamondSquare] as a method: it leaves [options] as it found it. *)
Definition DiamondSquare_method (random : nat → Q) : Method :=
  λ g options n,
    r ← DiamondSquare random g options n;
    Ret (r.1, options, r.2).
End MultiPass.

(** ** THREE.Terrain.js: heightmap images *)

Section Heightmaps.
Open Scope Q_scope.

(** The store into a [Uint8ClampedArray] of a number that is an integer
    already. *)
Definition to_uint8_clamped (v : Z) : Z := Z.max 0 (Z.min 255 v).

(** [THREE.Terrain.fromHeightmap(g, options)]. [data] is the pixel buffer
    that [getImageData] returns for the image drawn on a canvas of
    [cols] by [rows] pixels: four bytes per pixel, row after row. *)
Definition fromHeightmap (data : list Z) (g : list Q) (options : Options)
    : outcome (list Q) :=
  let rows := (ySegments options + 1)%Z in
  let cols := (xSegments options + 1)%Z in
  let spread := maxHeight options - minHeight options in
  for_loop (Z.to_nat rows) 0 (λ row, (row <? rows)%Z) Z.succ
    (λ row g,
       g ← for_loop (Z.to_nat cols) 0 (λ col, (col <? cols)%Z) Z.succ
             (λ col g,
                let i := (row * cols + col)%Z in
                let idx := (i * 4)%Z in
                match data !! Z.to_nat idx, data !! Z.to_nat (idx + 1),
                      data !! Z.to_nat (idx + 2) with
                | Some r, Some gr, Some b =>
                    if (Z.of_nat (length g) <=? i)%Z then Raise
                    else Ret (Continue
                           (<[Z.to_nat i :=
                                inject_Z (r + gr + b) / 765 * spread]> g))
                | _, _, _ => Raise
                end)
             g;
       Ret (Continue g))
    g.

(** [THREE.Terrain.toHeightmap(g, options)]: the pixel buffer painted on
    the canvas. [createImageData] hands out a buffer of zeros. *)
Definition toHeightmap (g : list Q) (options : Options) : outcome (list Z) :=
  let rows := (ySegments options + 1)%Z in
  let cols := (xSegments options + 1)%Z in
  let spread := maxHeight options - minHeight options in
  for_loop (Z.to_nat rows) 0 (λ row, (row <? rows)%Z) Z.succ
    (λ row data,
       data ← for_loop (Z.to_nat cols) 0 (λ col, (col <? cols)%Z) Z.succ
             (λ col data,
                let i := (row * cols + col)%Z in
                let idx := (i * 4)%Z in
                match g !! Z.to_nat i with
                | None => Raise
                | Some z =>
                    let v := to_uint8_clamped
                               (Math_round ((z - minHeight options) / spread * 255)) in
                    let data := <[Z.to_nat (idx + 2) := v]> data in
                    let data := <[Z.to_nat (idx + 1) := v]> data in
                    let data := <[Z.to_nat idx := v]> data in
                    let data := <[Z.to_nat (idx + 3) := 255%Z]> data in
                    Ret (Continue data)
                end)
             data;
       Ret (Continue data))
    (replicate (Z.to_nat (cols * rows * 4)) 0%Z).
End Heightmaps.

(** ** src/core.js: the vertex buffer *)

Section Array1D.
(** The conversion of a number to the 32-bit float that a [Float32Array]
    stores. *)
Variable fround : Q → Q.

Open Scope Q_scope.

(** [THREE.Terrain.fromArray1D(vertices, src)]. [vertices] is a
    [Float32Array]: its length is fixed, and a store past its end is
    dropped. The bound [l] need not be an integer. *)
Definition fromArray1D (vertices src : list Q) : outcome (list Q) :=
  let l := Qmin (inject_Z (Z.of_nat (length vertices)) / 3)
                (inject_Z (Z.of_nat (length src))) in
  for_loop (length src) 0 (λ i, Qltb (inject_Z i) l) Z.succ
    (λ i vertices,
       match src !! Z.to_nat i with
       | None => Raise
       | Some v => Ret (Continue (<[Z.to_nat (i * 3 + 2) := fround v]> vertices))
       end)
    vertices.
End Array1D.

(** ** A [Math] to run the sampler with *)

(** A computable stand-in for the host's [Math], for running the sampler on
    concrete inputs: the square root cut after six decimals, cosine and sine
    by their Maclaurin polynomials (exact at [0]), and the decimal expansion
    of [Math.PI]. *)
Section ReferenceMath.
Open Scope Q_scope.

Definition approx_sqrt (q : Q) : Q :=
  if Qleb q 0 then 0
  else Qred (inject_Z (Z.sqrt (Qfloor (q * 1000000000000))) / 1000000).

Fixpoint maclaurin (n : nat) (term : Q) (k : Z) (a2 : Q) : Q :=
  match n with
  | O => 0
  | S n' =>
      term + maclaurin n'
               (Qred (- term * a2 / inject_Z ((k + 1) * (k + 2))))
               (k + 2)%Z a2
  end.

Definition approx_cos (a : Q) : Q := Qred (maclaurin 24 1 0 (a * a)).
Definition approx_sin (a : Q) : Q := Qred (maclaurin 24 a 1 (a * a)).
Definition approx_PI : Q := 3.141592653589793.
End ReferenceMath.

(** ** Vocabulary of the statements *)

Definition is_pow2 (p : Z) : Prop := ∃ k, 0 ≤ k ∧ p = 2 ^ k.

(** [p] is the smallest power of two that is at least [m]. *)
Definition smallest_pow2_ge (m p : Z) : Prop :=
  is_pow2 p ∧ m ≤ p ∧ ∀ q, is_pow2 q → m ≤ q → p ≤ q.

(** A scratch heightmap of [segments + 1] rows of [segments + 1] zeros, and
    nothing else. *)
Definition zero_grid (segments : Z) (heightmap : gmap Z (gmap Z Q)) : Prop :=
  (∀ i, is_Some (heightmap !! i) ↔ 0 ≤ i ≤ segments) ∧
  (∀ i j, hm_lookup heightmap i j =
          if decide (0 ≤ i ≤ segments ∧ 0 ≤ j ≤ segments)
          then Some 0%Q else None).

(** Every element of the square of side [segments + 1] is set. *)
Definition full (segments : Z) (heightmap : gmap Z (gmap Z Q)) : Prop :=
  ∀ i j, 0 ≤ i ≤ segments → 0 ≤ j ≤ segments →
         is_Some (hm_lookup heightmap i j).

(** The first and the last row agree, and so do the first and the last
    column. *)
Definition mirrored (segments : Z) (heightmap : gmap Z (gmap Z Q)) : Prop :=
  (∀ y, 0 ≤ y ≤ segments →
        hm_lookup heightmap 0 y = hm_lookup heightmap segments y) ∧
  (∀ x, 0 ≤ x ≤ segments →
        hm_lookup heightmap x 0 = hm_lookup heightmap x segments).

(** ** Loop invariants *)

(** What the loop of [fromArray1D] has done when its counter is [i]. *)
Definition copied (fround : Q → Q) (vertices src : list Q) (l : Q) (i : Z) (v : list Q) : Prop :=
  0 ≤ i ≤ Z.of_nat (length src) ∧
  length v = length vertices ∧
  (∀ j, 0 ≤ j < i → (inject_Z j < l)%Q) ∧
  (∀ k : nat, (∀ j, 0 ≤ j < i → k ≠ Z.to_nat (j * 3 + 2)) →
              v !! k = vertices !! k) ∧
  (∀ j s, 0 ≤ j < i → src !! Z.to_nat j = Some s →
          (Z.to_nat (j * 3 + 2) < length vertices)%nat →
          v !! Z.to_nat (j * 3 + 2) = Some (fround s)).


(** What the inner loop of the initialisation has done to row [i] when its
    counter is [j]. *)
Definition init_row (segments : Z) (h0 : gmap Z (gmap Z Q)) (i j : Z)
    (h : gmap Z (gmap Z Q)) : Prop :=
  0 ≤ j ≤ segments + 1 ∧
  (∀ a, is_Some (h !! a) ↔ (a = i ∨ is_Some (h0 !! a))) ∧
  (∀ a b, hm_lookup h a b =
          if decide (a = i)
          then (if decide (0 ≤ b < j) then Some 0%Q else None)
          else hm_lookup h0 a b).

(** What the outer loop has done when its counter is [i]. *)
Definition init_rows (segments : Z) (i : Z) (h : gmap Z (gmap Z Q)) : Prop :=
  0 ≤ i ≤ segments + 1 ∧
  (∀ a, is_Some (h !! a) ↔ 0 ≤ a < i) ∧
  (∀ a b, hm_lookup h a b =
          if decide (0 ≤ a < i ∧ 0 ≤ b ≤ segments) then Some 0%Q else None).


(** The state of the displacement loop between two writes: the heightmap is
    full and mirrored. *)
Definition sound (segments : Z) (st : DSState) : Prop :=
  full segments (heightmap st) ∧ mirrored segments (heightmap st).

(** What the last loop nest of [DiamondSquare] has done to the vertices
    once it has been through the grid vertices in [visited]: each of them
    has received its clamped scratch value, once, and nothing else has
    changed. *)
Definition applied (options : Options) (hm : gmap Z (gmap Z Q)) (g : list Q)
    (visited : Z → Z → Prop) (g' : list Q) : Prop :=
  let xl := xSegments options + 1 in
  length g' = length g ∧
  (∀ i j z h, visited i j →
     g !! Z.to_nat (j * xl + i) = Some z → hm_lookup hm i j = Some h →
     g' !! Z.to_nat (j * xl + i)
       = Some (z + clamp h (minHeight options) (maxHeight options))%Q) ∧
  (∀ k : nat, (∀ i j, visited i j → k ≠ Z.to_nat (j * xl + i)) →
     g' !! k = g !! k).

(** The grid vertices that the loop nest has been through when its counters
    are [i] and [j]. *)
Definition columns_before (options : Options) (i : Z) : Z → Z → Prop :=
  λ i' j', 0 ≤ i' < i ∧ 0 ≤ j' < ySegments options + 1.

Definition cells_before (options : Options) (i j : Z) : Z → Z → Prop :=
  λ i' j', columns_before options i i' j' ∨ (i' = i ∧ 0 ≤ j' < j).

(** ** Concrete inputs *)

(** A stream of draws in [[0, 1)]: 0, 0.7, 0.4, 0.1, 0.8, ... *)
Definition sample_random (n : nat) : Q := Z.of_nat (n * 7 mod 10) # 10.

(** Options of a grid of 2 by 2 segments, of 4 by 4 segments and of a
    single segment, with the identity as easing and the default band. *)
Definition options_2x2 : Options :=
  {| easing := λ x, x; maxHeight := 100; minHeight := -100;
     xSegments := 2; ySegments := 2 |}.

Definition options_4x4 : Options :=
  {| easing := λ x, x; maxHeight := 100; minHeight := -100;
     xSegments := 4; ySegments := 4 |}.

Definition options_1x1 : Options :=
  {| easing := λ x, x; maxHeight := 100; minHeight := -100;
     xSegments := 1; ySegments := 1 |}.

(** The two passes of [PerlinDiamond], with DiamondSquare standing in for
    the Perlin pass. *)
Definition sample_passes : list Pass :=
  [ {| method := DiamondSquare_method sample_random; granularity := None |};
    {| method := DiamondSquare_method sample_random;
       granularity := Some (-2)%Q |} ].

(** What [MultiPass] returns for these passes on four flat vertices. *)
Definition sample_multipass : outcome (list Q * Options * nat) :=
  Eval vm_compute in
    MultiPass (replicate 4 0%Q) options_1x1 sample_passes 0.

Definition sample_multipass_g : list Q :=
  match sample_multipass with Ret r => r.1.1 | _ => [] end.

Definition sample_multipass_options : Options :=
  match sample_multipass with Ret r => r.1.2 | _ => options_1x1 end.

Definition sample_multipass_rng : nat :=
  match sample_multipass with Ret r => r.2 | _ => O end.

(** ** Vocabulary of the statements on the sampler *)





(** [THREE.Vector2.distanceToSquared]: the square of the Euclidean
    distance. *)
Definition distanceToSquared (a b : Vector2.t) : Q :=
  ((Vector2.x a - Vector2.x b) * (Vector2.x a - Vector2.x b) +
   (Vector2.y a - Vector2.y b) * (Vector2.y a - Vector2.y b))%Q.

(** Draws for a run on a domain of 10 by 10 with [numPoints = 1]: the seed
    at (5, 5), then a candidate at angle 0. *)
Definition overshoot_random (n : nat) : Q :=
  match n with
  | 4%nat => 0
  | _ => 1 # 2
  end.

(** Draws for a run on a domain of 10 by 10 with [numPoints = 3]: the seed
    at (5, 5), then two candidates at angle 0, at radius [minDist] and
    [1.1 * minDist]. *)
Definition close_random (n : nat) : Q :=
  match n with
  | 3%nat => 0
  | 4%nat => 0
  | 5%nat => 1 # 10
  | 6%nat => 0
  | _ => 1 # 2
  end.

(** A constant stream of draws. *)
Definition half_random (n : nat) : Q := 1 # 2.

(** Four elevations across the band of [options_1x1], one per vertex of a
    grid of a single segment. *)
Definition sample_elevations : list Q := [-100; 0; 50; 100]%Q.

(** ** Vocabulary of the statements on heightmap images *)

(** The grey level that [toHeightmap] paints for the elevation [z]. *)
Definition grey_level (options : Options) (z : Q) : Z :=
  to_uint8_clamped
    (Math_round ((z - minHeight options)
                 / (maxHeight options - minHeight options) * 255)%Q).

(** The elevation that [fromHeightmap] reads from a pixel. *)
Definition pixel_elevation (options : Options) (r gr b : Z) : Q :=
  (inject_Z (r + gr + b) / 765 * (maxHeight options - minHeight options))%Q.

(** The first [k] pixels of [data] are painted from the first [k]
    elevations of [g]. *)
Definition painted (options : Options) (g : list Q) (size : Z) (k : Z)
    (data : list Z) : Prop :=
  Z.of_nat (length data) = size ∧
  ∀ i z, 0 ≤ i < k → g !! Z.to_nat i = Some z →
    data !! Z.to_nat (i * 4) = Some (grey_level options z) ∧
    data !! Z.to_nat (i * 4 + 1) = Some (grey_level options z) ∧
    data !! Z.to_nat (i * 4 + 2) = Some (grey_level options z) ∧
    data !! Z.to_nat (i * 4 + 3) = Some 255.

(** The first [k] elevations of [g'] are read from the first [k] pixels of
    [data], and the others are those of [g]. *)
Definition imported (options : Options) (data : list Z) (g : list Q) (k : Z)
    (g' : list Q) : Prop :=
  length g' = length g ∧
  (∀ i r gr b, 0 ≤ i < k →
     data !! Z.to_nat (i * 4) = Some r →
     data !! Z.to_nat (i * 4 + 1) = Some gr →
     data !! Z.to_nat (i * 4 + 2) = Some b →
     g' !! Z.to_nat i = Some (pixel_elevation options r gr b)) ∧
  (∀ i : nat, k ≤ Z.of_nat i → g' !! i = g !! i).

(** ** The Worley module: nearest seed and uniform seeds *)




Section Nearest.
Variable Math_sqrt : Q → Q.



End Nearest.

Section RandomPoints.
Variable Math_sqrt : Q → Q.
Variable random : nat → Q.


End RandomPoints.

(** ** THREE.Terrain.js: easing and the Corner generator *)

Section Easing.
Open Scope Q_scope.

Definition NoEasing (x : Q) : Q := x.


End Easing.


Section Corner.
Variable random : nat → Q.

Open Scope Q_scope.


End Corner.

(** ** src/core.js: toArray1D *)

Section ToArray1D.
(** The conversion of a number to the 32-bit float that a [Float32Array]
    stores. *)
Variable fround : Q → Q.

(** [THREE.Terrain.toArray1D(vertices)]. The length handed to
    [new Float32Array] is cut to an integer, and the new array is filled
    with zeros. *)
Definition toArray1D (vertices : list Q) : outcome (list Q) :=
  let l := Math_floor (inject_Z (Z.of_nat (length vertices)) / 3)%Q in
  for_loop (Z.to_nat l) 0 (λ i, i <? l) Z.succ
    (λ i tgt,
       match vertices !! Z.to_nat (i * 3 + 2) with
       | None => Raise
       | Some v => Ret (Continue (<[Z.to_nat i := fround v]> tgt))
       end)
    (replicate (Z.to_nat l) 0%Q).
End ToArray1D.

(** ** Vocabulary of the further statements *)

(** The point stored in the cell [(x, y)] of the background grid, when the
    cell is occupied. *)
Definition grid_lookup (grid : gmap Z (gmap Z Vector2.t)) (x y : Z)
    : option Vector2.t :=
  grid !! x ≫= λ col, col !! y.








(** The state of the displacement loop between two writes, with the draws
    counted: the heightmap is full and mirrored, its corner [(0, 0)] still
    holds the zero it was filled with, and [draws] draws were made since
    [n]. *)
Definition counted (segments : Z) (n : nat) (draws : Z) (st : DSState)
    : Prop :=
  sound segments st ∧
  hm_lookup (heightmap st) 0 0 = Some 0%Q ∧
  Z.of_nat (rng st) = Z.of_nat n + draws.

(** The vertices that the last loop nest of [DiamondSquare] has found
    present in [g] when its counters are [i] and [j]. *)
Definition present (options : Options) (g : list Q) (i j : Z) (g' : list Q)
    : Prop :=
  length g' = length g ∧
  ∀ i' j', cells_before options i j i' j' →
           j' * (xSegments options + 1) + i' < Z.of_nat (length g).






(** The pixels that [toHeightmap] paints for [sample_elevations]. *)
Definition sample_pixels : list Z :=
  [0; 0; 0; 255; 128; 128; 128; 255; 191; 191; 191; 255; 255; 255; 255; 255].


(** What the loop of [toArray1D] has filled in when its counter is [i]. *)
Definition extracted (fround : Q → Q) (vertices : list Q) (l : Z) (i : Z)
    (tgt : list Q) : Prop :=
  0 ≤ i ≤ l ∧
  Z.of_nat (length tgt) = l ∧
  ∀ k z, 0 ≤ k < i → vertices !! Z.to_nat (k * 3 + 2) = Some z →
         tgt !! Z.to_nat k = Some (fround z).

(** A vertex buffer of two vertices, and a heightmap for them. *)
Definition sample_vertices : list Q := [1; 2; 3; 4; 5; 6]%Q.

Definition sample_heights : list Q := [10; 20]%Q.
Lemma Qltb_lt a b : Qltb a b = true ↔ (a < b)%Q.
Proof.
  unfold Qltb. rewrite negb_true_iff, <- not_true_iff_false, Qle_bool_iff.
  split; [apply Qnot_le_lt | apply Qlt_not_le].
Qed.

Lemma Qltb_ge a b : Qltb a b = false ↔ (b <= a)%Q.
Proof.
  unfold Qltb. rewrite negb_false_iff. apply Qle_bool_iff.
Qed.

(** ** Loop rules *)

Section LoopRules.
Context {S : Type}.

(** Invariant [I], break condition [B], and a measure that bounds the
    number of executions of the body still to come. *)
Lemma while_loop_rule (I B : S → Prop) (m : S → nat) cond body :
  (∀ s, I s → cond s = true →
     match body s with
     | Ret (Continue s') => I s' ∧ (m s' < m s)%nat
     | Ret (Break s') => B s' ∧ (0 < m s)%nat
     | _ => False
     end) →
  ∀ fuel s, I s → (m s ≤ fuel)%nat →
    ∃ s', while_loop fuel cond body s = Ret s' ∧
          ((I s' ∧ cond s' = false) ∨ B s').
Proof.
  intros Hbody fuel. induction fuel as [|fuel IH]; intros s Hs Hm; simpl.
  - destruct (cond s) eqn:Hc; [|eauto].
    specialize (Hbody s Hs Hc).
    destruct (body s) as [[s'|s']| |]; try contradiction; lia.
  - destruct (cond s) eqn:Hc; [|eauto].
    specialize (Hbody s Hs Hc).
    destruct (body s) as [[s'|s']| |]; try contradiction.
    + destruct Hbody as [Hs' Hlt]. apply IH; [done | lia].
    + destruct Hbody as [Hb _]. eauto.
Qed.



(** The same rule, with the postcondition of the caller. *)
Lemma while_loop_post (I B : S → Prop) (m : S → nat) (P : S → Prop)
    fuel cond body s :
  (∀ s, I s → cond s = true →
     match body s with
     | Ret (Continue s') => I s' ∧ (m s' < m s)%nat
     | Ret (Break s') => B s' ∧ (0 < m s)%nat
     | _ => False
     end) →
  I s → (m s ≤ fuel)%nat →
  (∀ s', I s' → cond s' = false → P s') →
  (∀ s', B s' → P s') →
  ∃ s', while_loop fuel cond body s = Ret s' ∧ P s'.
Proof.
  intros Hbody Hs Hm Hexit Hbreak.
  destruct (while_loop_rule I B m cond body Hbody fuel s Hs Hm)
    as (s' & Hrun & [[Hi Hc]|Hb]); exists s'; eauto.
Qed.
End LoopRules.

Section ForRule.
Context {S : Type}.

(** The rule for [for] loops: the invariant is indexed by the loop
    variable. *)
Lemma for_loop_rule (I : Z → S → Prop) (B : S → Prop) (m : Z → nat)
    cond next body :
  (∀ x s, I x s → cond x = true →
     (m (next x) < m x)%nat ∧
     match body x s with
     | Ret (Continue s') => I (next x) s'
     | Ret (Break s') => B s'
     | _ => False
     end) →
  ∀ fuel init s, I init s → (m init ≤ fuel)%nat →
    ∃ s', for_loop fuel init cond next body s = Ret s' ∧
          ((∃ x, I x s' ∧ cond x = false) ∨ B s').
Proof.
  intros Hbody fuel init s Hs Hm. unfold for_loop.
  edestruct (while_loop_rule (λ p, I p.1 p.2) (λ p, B p.2) (λ p, m p.1)
               (λ p : Z * S, cond p.1)) as (r & -> & Hr);
    [| exact Hs | exact Hm |].
  - intros [x t] Ht Hc; simpl in *.
    destruct (Hbody x t Ht Hc) as [Hlt Hb].
    destruct (body x t) as [[s'|s']| |]; simpl; try contradiction.
    + split; [done | lia].
    + split; [done | lia].
  - exists r.2. split; [done|].
    destruct Hr as [[Hi Hc]|Hb]; [left; eauto | by right].
Qed.

(** The same rule, with the postcondition of the caller. *)
Lemma for_loop_post (I : Z → S → Prop) (B : S → Prop) (m : Z → nat)
    (P : S → Prop) fuel init cond next body s :
  (∀ x s, I x s → cond x = true →
     (m (next x) < m x)%nat ∧
     match body x s with
     | Ret (Continue s') => I (next x) s'
     | Ret (Break s') => B s'
     | _ => False
     end) →
  I init s → (m init ≤ fuel)%nat →
  (∀ x s', I x s' → cond x = false → P s') →
  (∀ s', B s' → P s') →
  ∃ s', for_loop fuel init cond next body s = Ret s' ∧ P s'.
Proof.
  intros Hbody Hs Hm Hexit Hbreak.
  destruct (for_loop_rule I B m cond next body Hbody fuel init s Hs Hm)
    as (s' & Hrun & [(x & Hx & Hc)|Hb]); exists s'; eauto.
Qed.
End ForRule.

(** ** Distance metrics *)

Section MetricFacts.
Open Scope Q_scope.











End MetricFacts.

(** ** src/core.js: fromArray1D *)

Section Array1DFacts.
Variable fround : Q → Q.

Lemma below_src_length (vertices src : list Q) (i : Z) :
  (inject_Z i <
     Qmin (inject_Z (Z.of_nat (length vertices)) / 3)
          (inject_Z (Z.of_nat (length src))))%Q →
  i < Z.of_nat (length src).
Proof.
  intros H. rewrite Zlt_Qlt.
  eapply Qlt_le_trans; [exact H | apply Q.le_min_r].
Qed.

Lemma fromArray1D_copied (vertices src : list Q) :
  let l := Qmin (inject_Z (Z.of_nat (length vertices)) / 3)
                (inject_Z (Z.of_nat (length src))) in
  ∃ out, fromArray1D fround vertices src = Ret out ∧
         ∃ i, copied fround vertices src l i out ∧ (l <= inject_Z i)%Q.
Proof.
  intros l. unfold fromArray1D. fold l.
  apply (for_loop_post (copied fround vertices src l) (λ _, False)
           (λ i, Z.to_nat (Z.of_nat (length src) - i))).
  - intros i v (Hi & Hlen & Hbelow & Hframe & Hset) Hc.
    apply Qltb_lt in Hc. pose proof (below_src_length _ _ _ Hc) as Hi'.
    split; [lia|].
    destruct (src !! Z.to_nat i) as [s|] eqn:Hs.
    2:{ apply lookup_ge_None in Hs. lia. }
    split; [lia|]. split; [by rewrite length_insert|]. split; [|split].
    + intros j Hj. destruct (decide (j = i)) as [->|]; [done|].
      apply Hbelow. lia.
    + intros k Hk. rewrite list_lookup_insert_ne.
      * apply Hframe. intros j Hj. apply Hk. lia.
      * intros Heq. apply (Hk i); [lia | done].
    + intros j t Hj Ht Hin. destruct (decide (j = i)) as [->|Hne].
      * rewrite list_lookup_insert_eq by (rewrite Hlen; exact Hin).
        congruence.
      * rewrite list_lookup_insert_ne by lia. apply Hset; [lia | done..].
  - repeat split; try lia; intros; lia.
  - lia.
  - intros i out Hi Hc. exists i. split; [done|]. by apply Qltb_ge.
  - intros _ [].
Qed.

(** C10. [fromArray1D(vertices, src)] writes only [z] components: the
    buffer keeps its length, the component [3*i+2] receives [src[i]] for
    every [i] below [min(vertices.length / 3, src.length)] that has such a
    component, every [x] and [y] component keeps its value, and so does
    every component of a vertex that is not below that bound. *)
Theorem fromArray1D_writes_only_z (vertices src : list Q) :
  let l := Qmin (inject_Z (Z.of_nat (length vertices)) / 3)
                (inject_Z (Z.of_nat (length src))) in
  ∃ out, fromArray1D fround vertices src = Ret out ∧
    length out = length vertices ∧
    (∀ (i : nat) s, (inject_Z (Z.of_nat i) < l)%Q → src !! i = Some s →
                    (3 * i + 2 < length vertices)%nat →
                    out !! (3 * i + 2)%nat = Some (fround s)) ∧
    (∀ k : nat, (k mod 3 ≠ 2)%nat → out !! k = vertices !! k) ∧
    (∀ k : nat, (l <= inject_Z (Z.of_nat (k / 3)))%Q →
                out !! k = vertices !! k).
Proof.
  intros l.
  destruct (fromArray1D_copied vertices src)
    as (out & Hout & i & (Hi & Hlen & Hbelow & Hframe & Hset) & Hstop).
  fold l in Hbelow, Hstop, Hframe, Hset.
  exists out. split; [exact Hout|]. split; [exact Hlen|].
  assert (∀ j : nat, (inject_Z (Z.of_nat j) < l)%Q → Z.of_nat j < i) as Hin.
  { intros j Hj. rewrite Zlt_Qlt. eapply Qlt_le_trans; eassumption. }
  split; [|split].
  - intros j s Hj Hs Hk. specialize (Hin j Hj).
    replace (3 * j + 2)%nat with (Z.to_nat (Z.of_nat j * 3 + 2)) in * by lia.
    apply Hset; [lia | by rewrite Nat2Z.id | done].
  - intros k Hk. apply Hframe. intros j Hj ->. apply Hk.
    replace (Z.to_nat (j * 3 + 2)) with (2 + Z.to_nat j * 3)%nat by lia.
    by rewrite Nat.Div0.mod_add.
  - intros k Hk. apply Hframe. intros j Hj ->.
    specialize (Hbelow j Hj).
    assert (Z.to_nat (j * 3 + 2) / 3 = Z.to_nat j)%nat as Hdiv.
    { replace (Z.to_nat (j * 3 + 2)) with (2 + Z.to_nat j * 3)%nat by lia.
      rewrite Nat.div_add by lia. reflexivity. }
    rewrite Hdiv, Z2Nat.id in Hk by lia.
    apply (Qlt_irrefl l). eapply Qle_lt_trans; eassumption.
Qed.
End Array1DFacts.

(** ** DiamondSquare: the side of the scratch grid *)

Lemma pow2_pos k : 0 ≤ k → 0 < 2 ^ k.
Proof. intros. apply Z.pow_pos_nonneg; lia. Qed.

Lemma pow2_double k : 0 ≤ k → 2 ^ (k + 1) = 2 * 2 ^ k.
Proof. intros. rewrite Z.pow_add_r by lia. lia. Qed.

Lemma pow2_le_mono a b : 0 ≤ a ≤ b → 2 ^ a ≤ 2 ^ b.
Proof. intros. apply Z.pow_le_mono_r; lia. Qed.

(** The loop stops at the first exponent [n >= 1] with
    [segments <= 2 ^ n]. *)
Lemma DiamondSquare_segments_exponent (options : Options) :
  let m := Z.max (xSegments options) (ySegments options) + 1 in
  ∃ n, DiamondSquare_segments options = Ret (2 ^ n) ∧
       1 ≤ n ∧ m ≤ 2 ^ n ∧ (n = 1 ∨ 2 ^ (n - 1) < m).
Proof.
  intros m. unfold DiamondSquare_segments. fold m.
  destruct (while_loop_post
              (λ n, 1 ≤ n ∧ (n = 1 ∨ 2 ^ (n - 1) < m)) (λ _, False)
              (λ n, Z.to_nat (m - 2 ^ n))
              (λ n, m ≤ 2 ^ n ∧ 1 ≤ n ∧ (n = 1 ∨ 2 ^ (n - 1) < m))
              (Z.to_nat m) (λ n, 2 ^ n <? m)
              (λ n, Ret (Continue (n + 1))) 1) as (n & -> & Hn).
  - intros n [Hn1 Hmin] Hc. apply Z.ltb_lt in Hc.
    pose proof (pow2_pos n ltac:(lia)). pose proof (pow2_double n ltac:(lia)).
    split; [split; [lia|] | lia].
    right. by replace (n + 1 - 1) with n by lia.
  - lia.
  - change (2 ^ 1) with 2. lia.
  - intros n [Hn1 Hmin] Hc. apply Z.ltb_ge in Hc. done.
  - intros _ [].
  - exists n. simpl. tauto.
Qed.

Lemma DiamondSquare_segments_smallest (options : Options) :
  1 ≤ xSegments options → 1 ≤ ySegments options →
  ∃ segments, DiamondSquare_segments options = Ret segments ∧
    smallest_pow2_ge (Z.max (xSegments options) (ySegments options) + 1)
                     segments.
Proof.
  intros Hx Hy.
  destruct (DiamondSquare_segments_exponent options)
    as (n & Hrun & Hn & Hge & Hmin).
  exists (2 ^ n). split; [exact Hrun|]. split; [|split; [exact Hge|]].
  - exists n. split; [lia | done].
  - intros q (k & Hk & ->) Hq. apply pow2_le_mono. split; [lia|].
    destruct (decide (n ≤ k)) as [|Hlt]; [done|]. exfalso.
    assert (2 ^ k ≤ 2 ^ (n - 1)) as Hle by (apply pow2_le_mono; lia).
    destruct Hmin as [->|Hmin]; [|lia].
    assert (k = 0) as -> by lia. change (2 ^ 0) with 1 in Hq. lia.
Qed.

(** ** DiamondSquare: the zero-filled scratch heightmap *)

Lemma hm_lookup_insert_row (h : gmap Z (gmap Z Q)) i row a b :
  hm_lookup (<[i := row]> h) a b =
  if decide (a = i) then row !! b else hm_lookup h a b.
Proof.
  unfold hm_lookup. rewrite lookup_insert.
  destruct (decide (i = a)), (decide (a = i)); try done; congruence.
Qed.

Lemma hm_set_spec (h : gmap Z (gmap Z Q)) i j v :
  is_Some (h !! i) →
  ∃ h', hm_set h i j v = Ret h' ∧
        (∀ a, is_Some (h' !! a) ↔ is_Some (h !! a)) ∧
        (∀ a b, hm_lookup h' a b =
                if decide (a = i ∧ b = j) then Some v else hm_lookup h a b).
Proof.
  intros [row Hrow]. unfold hm_set. rewrite Hrow. eexists. split; [done|].
  split.
  - intros a. rewrite lookup_insert. destruct (decide (i = a)) as [<-|]; [|done].
    rewrite Hrow. split; eauto.
  - intros a b. rewrite hm_lookup_insert_row.
    destruct (decide (a = i)) as [->|Hne].
    + rewrite lookup_insert. unfold hm_lookup. rewrite Hrow. simpl.
      destruct (decide (j = b)), (decide (i = i ∧ b = j)); try done; lia.
    + destruct (decide (a = i ∧ b = j)); [lia | done].
Qed.

Lemma DiamondSquare_init_zero (segments : Z) :
  0 ≤ segments →
  ∃ h, DiamondSquare_init segments = Ret h ∧ zero_grid segments h.
Proof.
  intros Hseg. unfold DiamondSquare_init.
  apply (for_loop_post (init_rows segments) (λ _, False)
           (λ i, Z.to_nat (segments + 1 - i))).
  - intros i h (Hi & Hdom & Hval) Hc. apply Z.leb_le in Hc.
    split; [lia|].
    edestruct (for_loop_post (init_row segments h i) (λ _, False)
                 (λ j, Z.to_nat (segments + 1 - j))
                 (λ h', init_row segments h i (segments + 1) h'))
      as (h' & -> & Hj & Hdom' & Hval'); simpl.
    + intros j h1 (Hj & Hdom1 & Hval1) Hcj. apply Z.leb_le in Hcj.
      split; [lia|].
      destruct (hm_set_spec h1 i j 0%Q) as (h2 & -> & Hdom2 & Hval2).
      { apply Hdom1. by left. }
      simpl. split; [lia|]. split.
      * intros a. rewrite Hdom2. apply Hdom1.
      * intros a b. rewrite Hval2, Hval1.
        destruct (decide (a = i ∧ b = j)) as [[-> ->]|Hne].
        -- rewrite decide_True by done. rewrite decide_True by lia. done.
        -- destruct (decide (a = i)) as [->|]; [|done].
           destruct (decide (0 ≤ b < j)), (decide (0 ≤ b < Z.succ j));
             try done; lia.
    + split; [lia|]. split.
      * intros a. rewrite lookup_insert.
        destruct (decide (i = a)) as [->|]; split; eauto; intros [|]; eauto; lia.
      * intros a b. rewrite hm_lookup_insert_row.
        destruct (decide (a = i)); [|done].
        rewrite lookup_empty. by rewrite decide_False by lia.
    + lia.
    + intros j h1 (Hj & Hdom1 & Hval1) Hcj. apply Z.leb_gt in Hcj.
      assert (j = segments + 1) as -> by lia. done.
    + intros _ [].
    + split; [lia|]. split.
      * intros a. rewrite Hdom', Hdom. lia.
      * intros a b. rewrite Hval', Hval.
        destruct (decide (a = i)) as [->|].
        -- destruct (decide (0 ≤ b < segments + 1)),
             (decide (0 ≤ i < Z.succ i ∧ 0 ≤ b ≤ segments)); try done; lia.
        -- destruct (decide (0 ≤ a < i ∧ 0 ≤ b ≤ segments)),
             (decide (0 ≤ a < Z.succ i ∧ 0 ≤ b ≤ segments)); try done; lia.
  - split; [lia|]. split.
    + intros a. rewrite lookup_empty. split; [by intros [? ?] | lia].
    + intros a b. unfold hm_lookup. rewrite lookup_empty. simpl.
      by rewrite decide_False by lia.
  - lia.
  - intros i h (Hi & Hdom & Hval) Hc. apply Z.leb_gt in Hc.
    assert (i = segments + 1) as -> by lia. split.
    + intros a. rewrite Hdom. lia.
    + intros a b. rewrite Hval.
      destruct (decide (0 ≤ a < segments + 1 ∧ 0 ≤ b ≤ segments)),
        (decide (0 ≤ a ≤ segments ∧ 0 ≤ b ≤ segments)); try done; lia.
  - intros _ [].
Qed.

(** ** DiamondSquare: the displacement loop *)

Lemma Qfloor_unique (q : Q) (z : Z) :
  (inject_Z z <= q)%Q → (q < inject_Z (z + 1))%Q → Qfloor q = z.
Proof.
  intros Hlo Hhi.
  pose proof (Qfloor_le q) as Hfl. pose proof (Qlt_floor q) as Hlt.
  assert (z < Qfloor q + 1) by (rewrite Zlt_Qlt; lra).
  assert (Qfloor q < z + 1) by (rewrite Zlt_Qlt; lra).
  lia.
Qed.

Lemma Math_round_Z (l : Z) : Math_round (inject_Z l) = l.
Proof.
  unfold Math_round. apply Qfloor_unique.
  - lra.
  - rewrite inject_Z_plus. change (inject_Z 1) with 1%Q. lra.
Qed.

Lemma Math_round_half (h : Z) : Math_round (inject_Z (2 * h) * 0.5) = h.
Proof.
  unfold Math_round. apply Qfloor_unique.
  - rewrite inject_Z_mult. change (inject_Z 2) with 2%Q. lra.
  - rewrite inject_Z_mult, inject_Z_plus.
    change (inject_Z 2) with 2%Q. change (inject_Z 1) with 1%Q. lra.
Qed.

Lemma hm_get_Some (h : gmap Z (gmap Z Q)) i j :
  is_Some (hm_lookup h i j) → ∃ v, hm_get h i j = Ret v.
Proof.
  unfold hm_lookup, hm_get. intros [v Hv].
  destruct (h !! i) as [row|]; [|done]. simpl in Hv. rewrite Hv. eauto.
Qed.

Lemma hm_lookup_row (h : gmap Z (gmap Z Q)) i j :
  is_Some (hm_lookup h i j) → is_Some (h !! i).
Proof.
  unfold hm_lookup. intros [v Hv]. destruct (h !! i); [eauto | done].
Qed.

(** A write keeps the heightmap full. *)
Lemma full_update segments (h h' : gmap Z (gmap Z Q)) i j v :
  (∀ a b, hm_lookup h' a b =
          if decide (a = i ∧ b = j) then Some v else hm_lookup h a b) →
  full segments h → full segments h'.
Proof.
  intros Hval Hfull a b Ha Hb. rewrite Hval. case_decide; [eauto|].
  by apply Hfull.
Qed.

(** A write away from the four edges keeps the heightmap mirrored. *)
Lemma mirrored_interior segments (h h' : gmap Z (gmap Z Q)) i j v :
  0 < i < segments → 0 < j < segments →
  (∀ a b, hm_lookup h' a b =
          if decide (a = i ∧ b = j) then Some v else hm_lookup h a b) →
  mirrored segments h → mirrored segments h'.
Proof.
  intros Hi Hj Hval [Hrow Hcol]. split.
  - intros y Hy. rewrite !Hval. repeat case_decide; try lia. by apply Hrow.
  - intros x Hx. rewrite !Hval. repeat case_decide; try lia. by apply Hcol.
Qed.

Section Displacement.
Variable random : nat → Q.
Variable options : Options.
Variable segments : Z.

Lemma DiamondSquare_square_sound half whole x y st :
  sound segments st →
  0 ≤ x → 0 ≤ y → x + whole ≤ segments → y + whole ≤ segments →
  0 < half < whole →
  ∃ st', DiamondSquare_square random options half whole x y st = Ret st' ∧
         sound segments st'.
Proof.
  intros [Hfull Hmir] Hx Hy Hxw Hyw Hhalf. unfold DiamondSquare_square.
  destruct (hm_get_Some (heightmap st) x y) as [a ->];
    [apply Hfull; lia|].
  destruct (hm_get_Some (heightmap st) (x + whole) y) as [b ->];
    [apply Hfull; lia|].
  destruct (hm_get_Some (heightmap st) x (y + whole)) as [c ->];
    [apply Hfull; lia|].
  destruct (hm_get_Some (heightmap st) (x + whole) (y + whole)) as [e ->];
    [apply Hfull; lia|].
  simpl.
  edestruct (hm_set_spec (heightmap st) (x + half) (y + half))
    as (h & -> & _ & Hval).
  { apply (hm_lookup_row _ _ 0), Hfull; lia. }
  simpl. eexists. split; [done|]. split; simpl.
  - eapply full_update; eauto.
  - eapply (mirrored_interior segments _ _ (x + half) (y + half));
      eauto; lia.
Qed.

Lemma rem_in_range a size : 0 ≤ a → 0 < size → 0 ≤ Z.rem a size ≤ size - 1.
Proof.
  intros Ha Hs. pose proof (Z.rem_bound_pos a size Ha Hs). lia.
Qed.

Lemma DiamondSquare_diamond_sound half x y st :
  sound segments st →
  0 ≤ x < segments → 0 ≤ y < segments → 0 < half ≤ segments →
  (x = 0 → 0 < y) →
  ∃ st', DiamondSquare_diamond random options segments (segments + 1)
           half x y st = Ret st' ∧
         sound segments st'.
Proof.
  intros [Hfull Hmir] Hx Hy Hhalf Hcorner. unfold DiamondSquare_diamond.
  pose proof (rem_in_range (x - half + (segments + 1)) (segments + 1)
                ltac:(lia) ltac:(lia)).
  pose proof (rem_in_range (x + half) (segments + 1) ltac:(lia) ltac:(lia)).
  pose proof (rem_in_range (y + half) (segments + 1) ltac:(lia) ltac:(lia)).
  pose proof (rem_in_range (y - half + (segments + 1)) (segments + 1)
                ltac:(lia) ltac:(lia)).
  destruct (hm_get_Some (heightmap st)
              (Z.rem (x - half + (segments + 1)) (segments + 1)) y)
    as [a ->]; [apply Hfull; lia|].
  destruct (hm_get_Some (heightmap st) (Z.rem (x + half) (segments + 1)) y)
    as [b ->]; [apply Hfull; lia|].
  destruct (hm_get_Some (heightmap st) x (Z.rem (y + half) (segments + 1)))
    as [c ->]; [apply Hfull; lia|].
  destruct (hm_get_Some (heightmap st) x
              (Z.rem (y - half + (segments + 1)) (segments + 1)))
    as [e ->]; [apply Hfull; lia|].
  simpl.
  edestruct (hm_set_spec (heightmap st) x y) as (h1 & -> & Hdom1 & Hval1).
  { apply (hm_lookup_row _ _ 0), Hfull; lia. }
  simpl.
  assert (full segments h1) as Hfull1 by (eapply full_update; eauto).
  destruct Hmir as [Hrow Hcol].
  destruct (x =? 0) eqn:Hx0; [apply Z.eqb_eq in Hx0 | apply Z.eqb_neq in Hx0].
  - (* the left edge, mirrored to the right edge *)
    subst x. specialize (Hcorner eq_refl).
    edestruct (hm_set_spec h1 segments y) as (h2 & -> & Hdom2 & Hval2).
    { apply (hm_lookup_row _ _ 0), Hfull1; lia. }
    simpl. destruct (y =? 0) eqn:Hy0; [apply Z.eqb_eq in Hy0; lia|].
    simpl. eexists. split; [done|]. split; simpl.
    + eapply full_update; eauto.
    + split.
      * intros y' Hy'. rewrite !Hval2, !Hval1.
        repeat case_decide; try done; try lia. by apply Hrow.
      * intros x' Hx'. rewrite !Hval2, !Hval1.
        repeat case_decide; try done; try lia. by apply Hcol.
  - simpl. destruct (y =? 0) eqn:Hy0;
      [apply Z.eqb_eq in Hy0 | apply Z.eqb_neq in Hy0].
    + (* the bottom edge, mirrored to the top edge *)
      subst y.
      edestruct (hm_set_spec h1 x segments) as (h2 & -> & Hdom2 & Hval2).
      { apply (hm_lookup_row _ _ 0), Hfull1; lia. }
      simpl. eexists. split; [done|]. split; simpl.
      * eapply full_update; eauto.
      * split.
        -- intros y' Hy'. rewrite !Hval2, !Hval1.
           repeat case_decide; try done; try lia. by apply Hrow.
        -- intros x' Hx'. rewrite !Hval2, !Hval1.
           repeat case_decide; try done; try lia. by apply Hcol.
    + simpl. eexists. split; [done|]. split; simpl; [done|].
      eapply (mirrored_interior segments _ _ x y); eauto; try lia.
      by split.
Qed.

Lemma DiamondSquare_level_sound h st :
  0 < h → (2 * h | segments) → 0 < segments →
  sound segments st →
  ∃ st', DiamondSquare_level random options segments (2 * h) st = Ret st' ∧
         sound segments st'.
Proof.
  intros Hh Hdiv Hseg Hst. unfold DiamondSquare_level.
  rewrite Math_round_half, Math_round_Z.
  assert (2 * h ≤ segments) as Hle by (apply Z.divide_pos_le; done).
  set (st0 := {| heightmap := heightmap st;
                 smoothing := (smoothing st / 2)%Q;
                 rng := rng st |}).
  assert (sound segments st0) as Hst0 by exact Hst.
  clearbody st0. clear Hst st.
  (* the square step *)
  edestruct (for_loop_post
               (λ x s, sound segments s ∧ 0 ≤ x ∧ (2 * h | x)) (λ _, False)
               (λ x, Z.to_nat (segments - x)) (sound segments))
    as (st1 & -> & Hst1); simpl.
  - intros x s (Hs & Hx & Hdx) Hc. apply Z.ltb_lt in Hc. split; [lia|].
    assert (x + 2 * h ≤ segments) as Hxw.
    { assert (2 * h ≤ segments - x); [|lia].
      apply Z.divide_pos_le; [lia|]. by apply Z.divide_sub_r. }
    edestruct (for_loop_post
                 (λ y s, sound segments s ∧ 0 ≤ y ∧ (2 * h | y)) (λ _, False)
                 (λ y, Z.to_nat (segments - y)) (sound segments))
      as (s' & -> & Hs'); simpl.
    + intros y t (Ht & Hy & Hdy) Hcy. apply Z.ltb_lt in Hcy. split; [lia|].
      assert (y + 2 * h ≤ segments) as Hyw.
      { assert (2 * h ≤ segments - y); [|lia].
        apply Z.divide_pos_le; [lia|]. by apply Z.divide_sub_r. }
      destruct (DiamondSquare_square_sound h (2 * h) x y t)
        as (t' & -> & Ht'); try done; try lia.
      simpl. split; [done|]. split; [lia|].
      apply Z.divide_add_r; [done | apply Z.divide_refl].
    + split; [exact Hs|]. split; [lia | apply Z.divide_0_r].
    + lia.
    + by intros y t (Ht & _) _.
    + intros _ [].
    + split; [done|]. split; [lia|].
      apply Z.divide_add_r; [done | apply Z.divide_refl].
  - split; [exact Hst0|]. split; [lia | apply Z.divide_0_r].
  - lia.
  - by intros x s (Hs & _) _.
  - intros _ [].
  - (* the diamond step *)
    apply (for_loop_post (λ x s, sound segments s ∧ 0 ≤ x) (λ _, False)
             (λ x, Z.to_nat (segments - x))).
    + intros x s (Hs & Hx) Hc. apply Z.ltb_lt in Hc. split; [lia|].
      pose proof (rem_in_range (x + h) (2 * h) ltac:(lia) ltac:(lia)) as Hy0.
      edestruct (for_loop_post
                   (λ y s, sound segments s ∧ 0 ≤ y ∧ (x = 0 → 0 < y))
                   (λ _, False)
                   (λ y, Z.to_nat (segments - y)) (sound segments))
        as (s' & -> & Hs'); simpl.
      * intros y t (Ht & Hy & Hcorner) Hcy. apply Z.ltb_lt in Hcy.
        split; [lia|].
        destruct (DiamondSquare_diamond_sound h x y t)
          as (t' & -> & Ht'); try done; try lia.
        simpl. split; [done|]. lia.
      * split; [exact Hs|]. split; [lia|].
        intros ->. rewrite Z.rem_small; lia.
      * lia.
      * by intros y t (Ht & _) _.
      * intros _ [].
      * split; [done | lia].
    + split; [exact Hst1 | lia].
    + lia.
    + by intros x s (Hs & _) _.
    + intros _ [].
Qed.

Lemma zero_grid_sound (h : gmap Z (gmap Z Q)) smoothing0 n :
  zero_grid segments h →
  sound segments {| heightmap := h; smoothing := smoothing0; rng := n |}.
Proof.
  intros [_ Hval]. split; simpl.
  - intros i j Hi Hj. rewrite Hval. rewrite decide_True by done. eauto.
  - split; intros a Ha; rewrite !Hval;
      repeat case_decide; try done; lia.
Qed.

Lemma DiamondSquare_generate_sound (h : gmap Z (gmap Z Q)) k n :
  1 ≤ k → segments = 2 ^ k → zero_grid segments h →
  ∃ st, DiamondSquare_generate random options segments h n = Ret st ∧
        sound segments st.
Proof.
  intros Hk Hseg Hzero. unfold DiamondSquare_generate.
  pose proof (pow2_pos k ltac:(lia)) as Hpos.
  apply (for_loop_post
           (λ l s, sound segments s ∧ ∃ e, 0 ≤ e ≤ k ∧ l = 2 ^ e)
           (λ _, False) (λ l, Z.to_nat l)).
  - intros l s (Hs & e & He & ->) Hc. apply Z.leb_le in Hc.
    assert (1 ≤ e) as He1.
    { destruct (decide (1 ≤ e)); [done|].
      assert (e = 0) as -> by lia. change (2 ^ 0) with 1 in Hc. lia. }
    pose proof (pow2_double (e - 1) ltac:(lia)) as Hdbl.
    replace (e - 1 + 1) with e in Hdbl by lia.
    pose proof (pow2_pos (e - 1) ltac:(lia)) as Hhalf.
    split.
    { apply Nat2Z.inj_lt. rewrite !Z2Nat.id by (try apply Z.div_pos; lia).
      apply Z.div_lt; lia. }
    rewrite Hdbl.
    destruct (DiamondSquare_level_sound (2 ^ (e - 1)) s)
      as (s' & -> & Hs'); try done; try lia.
    + rewrite <- Hdbl, Hseg.
      exists (2 ^ (k - e)). rewrite <- Z.pow_add_r by lia. f_equal. lia.
    + simpl. split; [done|]. exists (e - 1). split; [lia|].
      rewrite Z.mul_comm, Z.div_mul by lia. done.
  - split; [by apply zero_grid_sound|]. exists k. split; [lia | done].
  - lia.
  - by intros l s (Hs & _) _.
  - intros _ [].
Qed.
End Displacement.

Lemma DiamondSquare_scratch_sound random options n :
  ∃ segments st,
    DiamondSquare_scratch random options n = Ret (segments, st) ∧
    Z.max (xSegments options) (ySegments options) + 1 ≤ segments ∧
    sound segments st.
Proof.
  unfold DiamondSquare_scratch.
  destruct (DiamondSquare_segments_exponent options)
    as (k & -> & Hk & Hge & _). simpl.
  pose proof (pow2_pos k ltac:(lia)) as Hpos.
  destruct (DiamondSquare_init_zero (2 ^ k)) as (h & -> & Hzero); [lia|].
  simpl.
  destruct (DiamondSquare_generate_sound random options (2 ^ k) h k n)
    as (st & -> & Hst); try done.
  simpl. eauto.
Qed.

(** C3. When the displacement loop of DiamondSquare is over, the scratch
    heightmap has the same value at [0][y] and at [segments][y] for every
    [y] from [0] to [segments], and the same value at [x][0] and at
    [x][segments] for every [x] from [0] to [segments]. *)
Theorem DiamondSquare_toroidal (random : nat → Q) (options : Options) (n : nat) :
  ∃ segments st,
    DiamondSquare_scratch random options n = Ret (segments, st) ∧
    (∀ y, 0 ≤ y ≤ segments →
          ∃ v, hm_lookup (heightmap st) 0 y = Some v ∧
               hm_lookup (heightmap st) segments y = Some v) ∧
    (∀ x, 0 ≤ x ≤ segments →
          ∃ v, hm_lookup (heightmap st) x 0 = Some v ∧
               hm_lookup (heightmap st) x segments = Some v).
Proof.
  destruct (DiamondSquare_scratch_sound random options n)
    as (segments & st & Hrun & Hge & Hfull & Hrow & Hcol).
  exists segments, st. split; [exact Hrun|]. split.
  - intros y Hy. destruct (Hfull 0 y) as [v Hv]; [lia | done |].
    exists v. split; [done|]. by rewrite <- Hrow.
  - intros x Hx. destruct (Hfull x 0) as [v Hv]; [done | lia |].
    exists v. split; [done|]. by rewrite <- Hcol.
Qed.

(** ** DiamondSquare: the scratch heightmap is added to the vertices *)


Lemma vertex_index_inj xl i j i' j' :
  0 ≤ i < xl → 0 ≤ i' < xl → 0 ≤ j → 0 ≤ j' →
  Z.to_nat (j * xl + i) = Z.to_nat (j' * xl + i') → i = i' ∧ j = j'.
Proof.
  intros Hi Hi' Hj Hj' Heq.
  assert (j * xl + i = j' * xl + i') as H by nia.
  assert (j = j') by nia. subst. lia.
Qed.

Lemma applied_ext options hm g (v1 v2 : Z → Z → Prop) g' :
  (∀ i j, v1 i j ↔ v2 i j) →
  applied options hm g v1 g' → applied options hm g v2 g'.
Proof.
  intros Hext (Hlen & Hadd & Hframe). split; [done|]. split.
  - intros i j z h Hv. apply Hadd. by apply Hext.
  - intros k Hk. apply Hframe. intros i j Hv. apply Hk. by apply Hext.
Qed.

Lemma vertex_index_bound (options : Options) i j :
  0 ≤ i < xSegments options + 1 → 0 ≤ j < ySegments options + 1 →
  0 ≤ j * (xSegments options + 1) + i
    < (xSegments options + 1) * (ySegments options + 1).
Proof. intros. nia. Qed.

Section Apply.
Variable options : Options.
Variable hm : gmap Z (gmap Z Q).
Variable g : list Q.
Variable segments : Z.

Hypothesis Hx : 0 ≤ xSegments options < segments.
Hypothesis Hy : 0 ≤ ySegments options < segments.
Hypothesis Hfull : full segments hm.
Hypothesis Hlen :
  (xSegments options + 1) * (ySegments options + 1) ≤ Z.of_nat (length g).

(** One vertex: the body of the inner loop. *)
Lemma apply_cell i j g' :
  0 ≤ i < xSegments options + 1 → 0 ≤ j < ySegments options + 1 →
  applied options hm g (cells_before options i j) g' →
  ∃ h g'',
    hm_get hm i j = Ret h ∧
    add_z g' (j * (xSegments options + 1) + i)
          (clamp h (minHeight options) (maxHeight options)) = Ret g'' ∧
    applied options hm g (cells_before options i (Z.succ j)) g''.
Proof.
  intros Hi Hj (Hlen' & Hadd & Hframe).
  pose proof (vertex_index_bound options i j Hi Hj) as Hk.
  destruct (Hfull i j) as [h Hh]; [lia..|].
  exists h. unfold hm_get, hm_lookup in *.
  destruct (hm !! i) as [row|] eqn:Hrow; [|done]. simpl in Hh. rewrite Hh.
  unfold add_z. destruct (Z.ltb_spec (j * (xSegments options + 1) + i) 0);
    [lia|].
  assert (g' !! Z.to_nat (j * (xSegments options + 1) + i)
          = g !! Z.to_nat (j * (xSegments options + 1) + i)) as Hsame.
  { apply Hframe. intros i' j' Hv Heq.
    apply vertex_index_inj in Heq as [-> ->]; try lia.
    - destruct Hv as [[? ?]|[? ?]]; lia.
    - destruct Hv as [[? ?]|[? ?]]; lia.
    - destruct Hv as [[? ?]|[? ?]]; lia. }
  destruct (g !! Z.to_nat (j * (xSegments options + 1) + i)) as [z|] eqn:Hz.
  2:{ apply lookup_ge_None in Hz. lia. }
  rewrite Hsame. eexists. split; [done|]. split; [done|].
  split; [by rewrite length_insert|]. split.
  - intros i' j' z' h' Hv Hz' Hh'.
    destruct (decide (i' = i ∧ j' = j)) as [[-> ->]|Hne].
    + rewrite list_lookup_insert_eq.
      * rewrite Hz in Hz'. injection Hz' as <-.
        unfold hm_lookup in Hh'. rewrite Hrow in Hh'.
        simpl in Hh'. congruence.
      * rewrite Hlen'. apply lookup_lt_Some in Hz. done.
    + rewrite list_lookup_insert_ne.
      * apply Hadd; [|done..].
        destruct Hv as [?|[-> ?]]; [by left|]. right. lia.
      * intros Heq. apply vertex_index_inj in Heq as [-> ->]; try lia.
        -- destruct Hv as [[? ?]|[? ?]]; lia.
        -- destruct Hv as [[? ?]|[? ?]]; lia.
  - intros k Hkk. rewrite list_lookup_insert_ne.
    + apply Hframe. intros i' j' Hv. apply Hkk.
      destruct Hv as [?|[-> ?]]; [by left|]. right. lia.
    + intros <-. apply (Hkk i j); [|done]. right. lia.
Qed.

Lemma DiamondSquare_apply_applied :
  ∃ g', DiamondSquare_apply options hm g = Ret g' ∧
        applied options hm g
          (columns_before options (xSegments options + 1)) g'.
Proof.
  unfold DiamondSquare_apply.
  apply (for_loop_post
           (λ i g', 0 ≤ i ≤ xSegments options + 1 ∧
                    applied options hm g (columns_before options i) g')
           (λ _, False) (λ i, Z.to_nat (xSegments options + 1 - i))).
  - intros i g1 (Hi & Hg1) Hc. apply Z.ltb_lt in Hc. split; [lia|].
    edestruct (for_loop_post
                 (λ j g', 0 ≤ j ≤ ySegments options + 1 ∧
                          applied options hm g (cells_before options i j) g')
                 (λ _, False) (λ j, Z.to_nat (ySegments options + 1 - j))
                 (λ g', applied options hm g
                          (cells_before options i (ySegments options + 1)) g'))
      as (g2 & -> & Hg2); simpl.
    + intros j g2 (Hj & Hg2) Hcj. apply Z.ltb_lt in Hcj. split; [lia|].
      destruct (apply_cell i j g2) as (h & g3 & -> & Hrun & Hg3);
        [lia | lia | done |].
      simpl. rewrite Hrun. simpl. split; [lia | done].
    + split; [lia|]. eapply applied_ext; [|exact Hg1].
      intros i' j'. unfold cells_before. split; [by left|].
      intros [?|[? ?]]; [done | lia].
    + lia.
    + intros j g2 (Hj & Hg2) Hcj. apply Z.ltb_ge in Hcj.
      by replace j with (ySegments options + 1) in Hg2 by lia.
    + intros _ [].
    + split; [lia|]. eapply applied_ext; [|exact Hg2].
      intros i' j'. unfold cells_before, columns_before. lia.
  - split; [lia|]. split; [done|]. split.
    + intros i j z h [? _]. lia.
    + done.
  - lia.
  - intros i g1 (Hi & Hg1) Hc. apply Z.ltb_ge in Hc.
    by replace i with (xSegments options + 1) in Hg1 by lia.
  - intros _ [].
Qed.
End Apply.

(** C1. For every grid vertex [(i, j)] with [0 <= i <= xSegments] and
    [0 <= j <= ySegments], DiamondSquare adds to the elevation at index
    [j * (xSegments + 1) + i] the scratch value [heightmap[i][j]] clamped to
    [[minHeight, maxHeight]]: the final elevation is the prior elevation
    plus that clamped value. (The vertices beyond the grid keep their
    elevation.) *)
Theorem DiamondSquare_adds_clamped (random : nat → Q) (g : list Q)
    (options : Options) (n : nat) :
  0 ≤ xSegments options → 0 ≤ ySegments options →
  (xSegments options + 1) * (ySegments options + 1) ≤ Z.of_nat (length g) →
  ∃ segments st g',
    DiamondSquare_scratch random options n = Ret (segments, st) ∧
    DiamondSquare random g options n = Ret (g', rng st) ∧
    length g' = length g ∧
    (∀ i j, 0 ≤ i ≤ xSegments options → 0 ≤ j ≤ ySegments options →
       ∃ z h,
         g !! Z.to_nat (j * (xSegments options + 1) + i) = Some z ∧
         hm_lookup (heightmap st) i j = Some h ∧
         g' !! Z.to_nat (j * (xSegments options + 1) + i)
           = Some (z + clamp h (minHeight options) (maxHeight options))%Q) ∧
    (∀ k : nat,
       (xSegments options + 1) * (ySegments options + 1) ≤ Z.of_nat k →
       g' !! k = g !! k).
Proof.
  intros Hx Hy Hlen.
  destruct (DiamondSquare_scratch_sound random options n)
    as (segments & st & Hrun & Hge & Hfull & _).
  destruct (DiamondSquare_apply_applied options (heightmap st) g segments)
    as (g' & Happly & Hlen' & Hadd & Hframe); [lia | lia | done | done |].
  exists segments, st, g'. split; [exact Hrun|]. split.
  { unfold DiamondSquare. rewrite Hrun. simpl. rewrite Happly. done. }
  split; [exact Hlen'|]. split.
  - intros i j Hi Hj.
    pose proof (vertex_index_bound options i j ltac:(lia) ltac:(lia)) as Hk.
    destruct (lookup_lt_is_Some_2 g (Z.to_nat (j * (xSegments options + 1) + i)))
      as [z Hz]; [lia|].
    destruct (Hfull i j) as [h Hh]; [lia..|].
    exists z, h. split; [done|]. split; [done|].
    apply Hadd; [|done..]. split; lia.
  - intros k Hk. apply Hframe. intros i j [Hi Hj] ->.
    pose proof (vertex_index_bound options i j ltac:(lia) ltac:(lia)). lia.
Qed.

(** C1 on nine vertices of elevation 1 and a grid of 2 by 2 segments. *)
Lemma DiamondSquare_adds_clamped_witness :
  0 ≤ xSegments options_2x2 ∧ 0 ≤ ySegments options_2x2 ∧
  (xSegments options_2x2 + 1) * (ySegments options_2x2 + 1)
    ≤ Z.of_nat (length (replicate 9 1%Q)) ∧
  ∃ segments st g',
    DiamondSquare_scratch sample_random options_2x2 0 = Ret (segments, st) ∧
    DiamondSquare sample_random (replicate 9 1%Q) options_2x2 0
      = Ret (g', rng st) ∧
    length g' = length (replicate 9 1%Q) ∧
    (∀ i j, 0 ≤ i ≤ xSegments options_2x2 → 0 ≤ j ≤ ySegments options_2x2 →
       ∃ z h,
         replicate 9 1%Q !! Z.to_nat (j * (xSegments options_2x2 + 1) + i)
           = Some z ∧
         hm_lookup (heightmap st) i j = Some h ∧
         g' !! Z.to_nat (j * (xSegments options_2x2 + 1) + i)
           = Some (z + clamp h (minHeight options_2x2) (maxHeight options_2x2))%Q) ∧
    (∀ k : nat,
       (xSegments options_2x2 + 1) * (ySegments options_2x2 + 1) ≤ Z.of_nat k →
       g' !! k = replicate 9 1%Q !! k).
Proof.
  assert (0 ≤ xSegments options_2x2) as H1 by (simpl; lia).
  assert (0 ≤ ySegments options_2x2) as H2 by (simpl; lia).
  assert ((xSegments options_2x2 + 1) * (ySegments options_2x2 + 1)
            ≤ Z.of_nat (length (replicate 9 1%Q))) as H3 by (simpl; lia).
  exact (conj H1 (conj H2 (conj H3
    (DiamondSquare_adds_clamped sample_random (replicate 9 1%Q) options_2x2 0
       H1 H2 H3)))).
Defined.

(** ** DiamondSquare: the scratch grid *)

(** C2, amended. For every [xSegments >= 1] and [ySegments >= 1], the side
    [segments] of the scratch grid is the smallest power of two greater
    than or equal to [max(xSegments, ySegments) + 1], and the scratch
    heightfield is a [(segments+1) x (segments+1)] array of zeros before the
    displacement begins. *)
Theorem DiamondSquare_scratch_grid (options : Options) :
  1 ≤ xSegments options → 1 ≤ ySegments options →
  ∃ segments h,
    DiamondSquare_segments options = Ret segments ∧
    smallest_pow2_ge (Z.max (xSegments options) (ySegments options) + 1)
                     segments ∧
    DiamondSquare_init segments = Ret h ∧
    zero_grid segments h.
Proof.
  intros Hx Hy.
  destruct (DiamondSquare_segments_smallest options Hx Hy)
    as (segments & Hrun & Hsmall).
  destruct (DiamondSquare_init_zero segments) as (h & Hinit & Hzero).
  { destruct Hsmall as (_ & Hge & _). lia. }
  exists segments, h. done.
Qed.

(** C2, amended, on a grid of 4 by 4 segments. *)
Lemma DiamondSquare_scratch_grid_witness :
  1 ≤ xSegments options_4x4 ∧ 1 ≤ ySegments options_4x4 ∧
  ∃ segments h,
    DiamondSquare_segments options_4x4 = Ret segments ∧
    smallest_pow2_ge (Z.max (xSegments options_4x4) (ySegments options_4x4) + 1)
                     segments ∧
    DiamondSquare_init segments = Ret h ∧
    zero_grid segments h.
Proof.
  assert (1 ≤ xSegments options_4x4) as H1 by (simpl; lia).
  assert (1 ≤ ySegments options_4x4) as H2 by (simpl; lia).
  exact (conj H1 (conj H2 (DiamondSquare_scratch_grid options_4x4 H1 H2))).
Defined.

(** C2 as first stated fails for 4 by 4 segments: the side of the scratch
    grid is 8, and 4 is a power of two that is at least [max(4, 4)]. *)
Lemma DiamondSquare_segments_4x4 :
  ¬ ∃ segments,
      DiamondSquare_segments options_4x4 = Ret segments ∧
      smallest_pow2_ge (Z.max (xSegments options_4x4) (ySegments options_4x4))
                       segments.
Proof.
  intros (segments & Hrun & _ & _ & Hmin).
  assert (DiamondSquare_segments options_4x4 = Ret 8) as H8 by reflexivity.
  rewrite H8 in Hrun. injection Hrun as <-.
  specialize (Hmin 4). simpl in Hmin.
  assert (is_pow2 4) as H4 by (exists 2; split; [lia | reflexivity]).
  specialize (Hmin H4). lia.
Qed.

(** ** MultiPass *)

Lemma MultiPass_returns (g : list Q) (options : Options) (passes : list Pass)
    (n : nat) :
  (∀ pass g o k, pass ∈ passes → ∃ r, method pass g o k = Ret r) →
  ∃ r, MultiPass g options passes n = Ret r.
Proof.
  intros Hpasses. unfold MultiPass.
  edestruct (for_loop_post
               (λ i (_ : MPState), 0 ≤ i ≤ Z.of_nat (length passes))
               (λ _, False)
               (λ i, Z.to_nat (Z.of_nat (length passes) - i))
               (λ _, True))
    as (st & -> & _); simpl.
  - intros i st Hi Hc. apply Z.ltb_lt in Hc. split; [lia|].
    unfold MultiPass_pass.
    destruct (passes !! Z.to_nat i) as [pass|] eqn:Hpass.
    2:{ apply lookup_ge_None in Hpass. lia. }
    match goal with
    | |- context [method pass ?a ?b ?c] =>
        destruct (Hpasses pass a b c) as [r ->]
    end.
    + apply list_elem_of_lookup. eauto.
    + simpl. lia.
  - lia.
  - lia.
  - done.
  - intros _ [].
  - eauto.
Qed.

(** C6. Whatever the options and the passes, when
    [MultiPass(g, options, passes)] returns, [options.maxHeight] and
    [options.minHeight] are exactly the values they had before the call. *)
Theorem MultiPass_restores (g : list Q) (options : Options)
    (passes : list Pass) (n : nat) g' options' n' :
  MultiPass g options passes n = Ret (g', options', n') →
  maxHeight options' = maxHeight options ∧
  minHeight options' = minHeight options.
Proof.
  unfold MultiPass. intros Hrun.
  destruct (for_loop _ _ _ _ _ _) as [st| |]; simpl in Hrun; try discriminate.
  injection Hrun as _ <- _. done.
Qed.

(** C6 on two DiamondSquare passes over four flat vertices. *)
Lemma MultiPass_restores_witness :
  MultiPass (replicate 4 0%Q) options_1x1 sample_passes 0
    = Ret (sample_multipass_g, sample_multipass_options, sample_multipass_rng) ∧
  maxHeight sample_multipass_options = maxHeight options_1x1 ∧
  minHeight sample_multipass_options = minHeight options_1x1.
Proof.
  assert (MultiPass (replicate 4 0%Q) options_1x1 sample_passes 0
          = Ret (sample_multipass_g, sample_multipass_options,
                 sample_multipass_rng)) as H by (vm_compute; reflexivity).
  exact (conj H (MultiPass_restores _ _ _ _ _ _ _ H)).
Defined.


(** ** Poisson-disk sampling: termination *)

Section PoissonFacts.
Variable Math_sqrt Math_cos Math_sin : Q → Q.
Variable Math_PI : Q.
Variable random : nat → Q.

Hypothesis random_range : ∀ k, (0 <= random k)%Q ∧ (random k < 1)%Q.

Lemma random_index (k : nat) (len : nat) :
  (0 < len)%nat →
  0 ≤ Math_floor (random k * inject_Z (Z.of_nat len)) < Z.of_nat len.
Proof.
  intros Hlen. destruct (random_range k) as [Hlo Hhi].
  assert (0 < inject_Z (Z.of_nat len))%Q as Hpos.
  { rewrite <- (Zlt_Qlt 0). lia. }
  unfold Math_floor. split.
  - change 0 with (Qfloor 0). apply Qfloor_resp_le.
    apply Qmult_le_0_compat; lra.
  - rewrite Zlt_Qlt. eapply Qle_lt_trans; [apply Qfloor_le|].
    rewrite <- (Qmult_1_l (inject_Z (Z.of_nat len))) at 2.
    apply Qmult_lt_compat_r; done.
Qed.


Section Round.
Variable width height numPoints : Z.
Variable minDist cellSize : Q.

Hypothesis numPoints_pos : 1 ≤ numPoints.


End Round.



End PoissonFacts.


(** ** Poisson-disk sampling: two runs *)

(** C9, at [numPoints = 1]. On a domain of 10 by 10 the seed is accepted,
    the loop is entered without a look at the count, and the first
    candidate, which passes both tests, is appended as a second point. *)
Theorem PoissonDisks_one_point_overshoot :
  ∃ p q k,
    PoissonDisks approx_sqrt approx_cos approx_sin approx_PI overshoot_random
      1 10 10 1 0 = Ret ([p; q], k) ∧
    (1 < Z.of_nat (length [p; q])).
Proof.
  do 3 eexists. split; [vm_compute; reflexivity | simpl; lia].
Qed.

(** C4, at [numPoints = 3]. On a domain of 10 by 10 the two candidates
    drawn around the seed fall in the same grid cell, which
    [inNeighborhood] does not look at: both are accepted, at a distance of
    [0.201] from each other, while [minDist] is [2.01]. *)
Theorem PoissonDisks_close_pair :
  ∃ s p q k,
    PoissonDisks approx_sqrt approx_cos approx_sin approx_PI close_random
      9 10 10 3 0 = Ret ([s; p; q], k) ∧
    ¬ Vector2.same p q ∧
    (0 <= PoissonDisks_minDist approx_sqrt 10 10 3)%Q ∧
    (distanceToSquared p q
       < PoissonDisks_minDist approx_sqrt 10 10 3
         * PoissonDisks_minDist approx_sqrt 10 10 3)%Q.
Proof.
  do 4 eexists. split; [vm_compute; reflexivity|].
  split; [|split].
  - intros [Hx _]. vm_compute in Hx. discriminate.
  - vm_compute. discriminate.
  - vm_compute. reflexivity.
Qed.

(** ** Heightmap images *)

(** C8, on four vertices. Exported with [toHeightmap] and imported again
    with [fromHeightmap], every elevation comes back more than 99 units
    above its value, in a band of 200 units of which one grey level is
    less than one unit: the image gives the elevation above [minHeight],
    and [fromHeightmap] does not add [minHeight] to it. *)
Theorem heightmap_round_trip_shifted :
  ∃ data g',
    toHeightmap sample_elevations options_1x1 = Ret data ∧
    fromHeightmap data sample_elevations options_1x1 = Ret g' ∧
    Forall2 (λ z z', (99 < z' - z)%Q) sample_elevations g'.
Proof.
  do 2 eexists. split; [vm_compute; reflexivity|].
  split; [vm_compute; reflexivity|].
  repeat constructor.
Qed.

(** What the round trip through an image does in general: the elevation
    comes back measured from [minHeight], to half a grey level. *)
Section RoundTrip.
Variable options : Options.

Hypothesis Hx : 0 ≤ xSegments options.
Hypothesis Hy : 0 ≤ ySegments options.

Lemma pixel_index_bound row col :
  0 ≤ row < ySegments options + 1 → 0 ≤ col < xSegments options + 1 →
  0 ≤ row * (xSegments options + 1) + col
    < (xSegments options + 1) * (ySegments options + 1).
Proof. intros. nia. Qed.

Lemma toHeightmap_painted (g : list Q) :
  (xSegments options + 1) * (ySegments options + 1) ≤ Z.of_nat (length g) →
  ∃ data, toHeightmap g options = Ret data ∧
          painted options g
            ((xSegments options + 1) * (ySegments options + 1) * 4)
            ((xSegments options + 1) * (ySegments options + 1)) data.
Proof using Hx Hy.
  intros Hlen. unfold toHeightmap.
  set (cols := xSegments options + 1). set (rows := ySegments options + 1).
  fold cols rows in Hlen.
  apply (for_loop_post
           (λ row data, 0 ≤ row ≤ rows ∧
                        painted options g (cols * rows * 4) (row * cols) data)
           (λ _, False) (λ row, Z.to_nat (rows - row))).
  - intros row data (Hrow & Hdata) Hc. apply Z.ltb_lt in Hc. split; [lia|].
    edestruct (for_loop_post
                 (λ col data, 0 ≤ col ≤ cols ∧
                    painted options g (cols * rows * 4) (row * cols + col) data)
                 (λ _, False) (λ col, Z.to_nat (cols - col))
                 (painted options g (cols * rows * 4) (row * cols + cols)))
      as (data' & -> & Hdata').
    + intros col d (Hcol & Hsize & Hd) Hcc. apply Z.ltb_lt in Hcc.
      split; [lia|].
      pose proof (pixel_index_bound row col ltac:(lia) ltac:(lia)) as Hk.
      fold cols rows in Hk. set (k := row * cols + col) in *.
      destruct (g !! Z.to_nat k) as [z|] eqn:Hz.
      2:{ apply lookup_ge_None in Hz. lia. }
      split; [lia|]. split; [by rewrite !length_insert|].
      intros i z' Hi Hz'.
      destruct (decide (i = k)) as [->|Hne].
      * rewrite Hz in Hz'. injection Hz' as <-. fold (grey_level options z).
        repeat split.
        -- rewrite list_lookup_insert_ne by lia.
           rewrite list_lookup_insert_eq; [done|]. rewrite !length_insert. lia.
        -- rewrite list_lookup_insert_ne by lia.
           rewrite list_lookup_insert_ne by lia.
           rewrite list_lookup_insert_eq; [done|]. rewrite !length_insert. lia.
        -- rewrite list_lookup_insert_ne by lia.
           rewrite list_lookup_insert_ne by lia.
           rewrite list_lookup_insert_ne by lia.
           rewrite list_lookup_insert_eq; [done|]. lia.
        -- rewrite list_lookup_insert_eq; [done|]. rewrite !length_insert. lia.
      * rewrite !list_lookup_insert_ne by lia. apply Hd; [lia | done].
    + split; [lia|]. by rewrite Z.add_0_r.
    + lia.
    + intros col d (Hcol & Hd) Hcc. apply Z.ltb_ge in Hcc.
      by replace col with cols in Hd by lia.
    + intros _ [].
    + simpl. split; [lia|].
      by replace (Z.succ row * cols) with (row * cols + cols) by lia.
  - split; [lia|]. split.
    + rewrite length_replicate. nia.
    + intros i z Hi. lia.
  - lia.
  - intros row data (Hrow & Hdata) Hc. apply Z.ltb_ge in Hc.
    replace row with rows in Hdata by lia.
    by rewrite (Z.mul_comm rows cols) in Hdata.
  - intros _ [].
Qed.

Lemma fromHeightmap_imported (data : list Z) (g : list Q) :
  (xSegments options + 1) * (ySegments options + 1) ≤ Z.of_nat (length g) →
  (xSegments options + 1) * (ySegments options + 1) * 4
    ≤ Z.of_nat (length data) →
  ∃ g', fromHeightmap data g options = Ret g' ∧
        imported options data g
          ((xSegments options + 1) * (ySegments options + 1)) g'.
Proof using Hx Hy.
  intros Hlen Hdata. unfold fromHeightmap.
  set (cols := xSegments options + 1). set (rows := ySegments options + 1).
  fold cols rows in Hlen, Hdata.
  apply (for_loop_post
           (λ row g', 0 ≤ row ≤ rows ∧
                      imported options data g (row * cols) g')
           (λ _, False) (λ row, Z.to_nat (rows - row))).
  - intros row g1 (Hrow & Hg1) Hc. apply Z.ltb_lt in Hc. split; [lia|].
    edestruct (for_loop_post
                 (λ col g', 0 ≤ col ≤ cols ∧
                    imported options data g (row * cols + col) g')
                 (λ _, False) (λ col, Z.to_nat (cols - col))
                 (imported options data g (row * cols + cols)))
      as (g2 & -> & Hg2).
    + intros col g2 (Hcol & Hsize & Hread & Hrest) Hcc. apply Z.ltb_lt in Hcc.
      split; [lia|].
      pose proof (pixel_index_bound row col ltac:(lia) ltac:(lia)) as Hk.
      fold cols rows in Hk. set (k := row * cols + col) in *.
      destruct (lookup_lt_is_Some_2 data (Z.to_nat (k * 4))) as [r Hr]; [lia|].
      destruct (lookup_lt_is_Some_2 data (Z.to_nat (k * 4 + 1))) as [gr Hgr];
        [lia|].
      destruct (lookup_lt_is_Some_2 data (Z.to_nat (k * 4 + 2))) as [b Hb];
        [lia|].
      rewrite Hr, Hgr, Hb.
      destruct (Z.leb_spec (Z.of_nat (length g2)) k); [lia|].
      split; [lia|]. split; [by rewrite length_insert|]. split.
      * intros i r' gr' b' Hi Hr' Hgr' Hb'.
        destruct (decide (i = k)) as [->|Hne].
        -- rewrite list_lookup_insert_eq by lia.
           unfold pixel_elevation. congruence.
        -- rewrite list_lookup_insert_ne by lia. apply Hread; [lia | done..].
      * intros i Hi. rewrite list_lookup_insert_ne by lia. apply Hrest. lia.
    + split; [lia|]. by rewrite Z.add_0_r.
    + lia.
    + intros col g2 (Hcol & Hg2) Hcc. apply Z.ltb_ge in Hcc.
      by replace col with cols in Hg2 by lia.
    + intros _ [].
    + simpl. split; [lia|].
      by replace (Z.succ row * cols) with (row * cols + cols) by lia.
  - split; [lia|]. split; [done|]. split; [intros; lia | done].
  - lia.
  - intros row g1 (Hrow & Hg1) Hc. apply Z.ltb_ge in Hc.
    replace row with rows in Hg1 by lia.
    by rewrite (Z.mul_comm rows cols) in Hg1.
  - intros _ [].
Qed.
End RoundTrip.

Lemma Math_round_near (t : Q) :
  (inject_Z (Math_round t) <= t + (1 # 2))%Q ∧
  (t - (1 # 2) < inject_Z (Math_round t))%Q.
Proof.
  unfold Math_round.
  pose proof (Qfloor_le (t + (1 # 2))) as Hle.
  pose proof (Qlt_floor (t + (1 # 2))) as Hlt.
  rewrite inject_Z_plus in Hlt. change (inject_Z 1) with 1%Q in Hlt.
  split; lra.
Qed.

(** Inside the band the grey level is the rounded position in the band,
    with no clamping. *)
Lemma grey_level_in_band (options : Options) (z : Q) :
  (minHeight options < maxHeight options)%Q →
  (minHeight options <= z)%Q → (z <= maxHeight options)%Q →
  let t := ((z - minHeight options)
            / (maxHeight options - minHeight options) * 255)%Q in
  0 ≤ grey_level options z ≤ 255 ∧
  (inject_Z (grey_level options z) <= t + (1 # 2))%Q ∧
  (t - (1 # 2) < inject_Z (grey_level options z))%Q.
Proof.
  intros Hband Hlo Hhi t. unfold grey_level. fold t.
  set (s := (maxHeight options - minHeight options)%Q) in *.
  assert (0 < s)%Q as Hs by (unfold s; lra).
  assert (0 <= (z - minHeight options) / s)%Q as Hp0
    by (apply Qle_shift_div_l; [done | lra]).
  assert ((z - minHeight options) / s <= 1)%Q as Hp1
    by (apply Qle_shift_div_r; [done | unfold s; lra]).
  assert (0 <= t)%Q as Ht0 by (unfold t; lra).
  assert (t <= 255)%Q as Ht1 by (unfold t; lra).
  destruct (Math_round_near t) as [Hup Hdown].
  assert (0 ≤ Math_round t ≤ 255) as Hr.
  { split.
    - assert (-1 < Math_round t); [|lia].
      rewrite Zlt_Qlt. change (inject_Z (-1)) with (-1)%Q. lra.
    - assert (Math_round t < 256); [|lia].
      rewrite Zlt_Qlt. change (inject_Z 256) with 256%Q. lra. }
  unfold to_uint8_clamped. rewrite Z.min_r, Z.max_r by lia. done.
Qed.

(** The elevation read back from the pixel painted for [z]. *)
Lemma pixel_of_grey_level (options : Options) (z : Q) :
  (minHeight options < maxHeight options)%Q →
  (minHeight options <= z)%Q → (z <= maxHeight options)%Q →
  let v := grey_level options z in
  (Qabs (pixel_elevation options v v v - (z - minHeight options))
     <= (maxHeight options - minHeight options) / 510)%Q.
Proof.
  intros Hband Hlo Hhi v.
  destruct (grey_level_in_band options z Hband Hlo Hhi) as (_ & Hup & Hdown).
  fold v in Hup, Hdown. unfold pixel_elevation.
  set (s := (maxHeight options - minHeight options)%Q) in *.
  assert (0 < s)%Q as Hs by (unfold s; lra).
  rewrite !inject_Z_plus.
  set (q := inject_Z v) in *.
  set (t := ((z - minHeight options) / s * 255)%Q) in *.
  assert (z - minHeight options == t * s / 255)%Q as Hz.
  { unfold t. field. lra. }
  rewrite Hz.
  assert ((q + q + q) / 765 * s - t * s / 255 == (q - t) * (s / 255))%Q
    as -> by field.
  assert (s / 510 == (1 # 2) * (s / 255))%Q as -> by field.
  rewrite Qabs_Qmult, (Qabs_pos (s / 255)).
  - apply Qmult_le_compat_r.
    + apply Qabs_Qle_condition. split; lra.
    + apply Qle_shift_div_l; lra.
  - apply Qle_shift_div_l; lra.
Qed.

(** Exported and imported again, an elevation of the band comes back as
    its height above [minHeight], to half a grey level. *)
Lemma heightmap_round_trip (options : Options) (g g0 : list Q) :
  0 ≤ xSegments options → 0 ≤ ySegments options →
  (minHeight options < maxHeight options)%Q →
  (xSegments options + 1) * (ySegments options + 1) ≤ Z.of_nat (length g) →
  (xSegments options + 1) * (ySegments options + 1) ≤ Z.of_nat (length g0) →
  (∀ z, z ∈ g → (minHeight options <= z)%Q ∧ (z <= maxHeight options)%Q) →
  ∃ data g',
    toHeightmap g options = Ret data ∧
    fromHeightmap data g0 options = Ret g' ∧
    ∀ i z, 0 ≤ i < (xSegments options + 1) * (ySegments options + 1) →
      g !! Z.to_nat i = Some z →
      ∃ z', g' !! Z.to_nat i = Some z' ∧
            (Qabs (z' - (z - minHeight options))
               <= (maxHeight options - minHeight options) / 510)%Q.
Proof.
  intros Hx Hy Hband Hg Hg0 Hin.
  destruct (toHeightmap_painted options Hx Hy g Hg)
    as (data & Hexport & Hsize & Hpaint).
  destruct (fromHeightmap_imported options Hx Hy data g0 Hg0)
    as (g' & Himport & _ & Hread & _); [lia|].
  exists data, g'. split; [done|]. split; [done|].
  intros i z Hi Hz.
  destruct (Hpaint i z Hi Hz) as (Hr & Hgr & Hb & _).
  eexists. split; [by apply (Hread i _ _ _ Hi Hr Hgr Hb)|].
  destruct (Hin z) as [Hlo Hhi]; [by eapply list_elem_of_lookup_2|].
  by apply pixel_of_grey_level.
Qed.

(** ** Loop rules for runs that may fail *)

Section PartialRules.
Context {S : Type}.


(** A loop whose body never runs out of budget, and whose measure bounds
    the executions to come, ends in a result or in an error. *)
Lemma while_loop_outcome (I B : S → Prop) (m : S → nat) cond body :
  (∀ s, I s → cond s = true →
     match body s with
     | Ret (Continue s') => I s' ∧ (m s' < m s)%nat
     | Ret (Break s') => B s' ∧ (0 < m s)%nat
     | Raise => (0 < m s)%nat
     | OutOfFuel => False
     end) →
  ∀ fuel s, I s → (m s ≤ fuel)%nat →
    match while_loop fuel cond body s with
    | Ret s' => (I s' ∧ cond s' = false) ∨ B s'
    | Raise => True
    | OutOfFuel => False
    end.
Proof.
  intros Hbody fuel. induction fuel as [|fuel IH]; intros s Hs Hm; simpl.
  - destruct (cond s) eqn:Hc; [|by left].
    specialize (Hbody s Hs Hc).
    destruct (body s) as [[s'|s']| |]; try done; lia.
  - destruct (cond s) eqn:Hc; [|by left].
    specialize (Hbody s Hs Hc).
    destruct (body s) as [[s'|s']| |]; try done.
    + destruct Hbody as [Hs' Hlt]. apply IH; [done | lia].
    + destruct Hbody as [Hb _]. by right.
Qed.
End PartialRules.

Section PartialForRules.
Context {S : Type}.


Lemma for_loop_outcome (I : Z → S → Prop) (B : S → Prop) (m : Z → nat)
    cond next body :
  (∀ x s, I x s → cond x = true →
     (m (next x) < m x)%nat ∧
     match body x s with
     | Ret (Continue s') => I (next x) s'
     | Ret (Break s') => B s'
     | Raise => True
     | OutOfFuel => False
     end) →
  ∀ fuel init s, I init s → (m init ≤ fuel)%nat →
    match for_loop fuel init cond next body s with
    | Ret s' => (∃ x, I x s' ∧ cond x = false) ∨ B s'
    | Raise => True
    | OutOfFuel => False
    end.
Proof.
  intros Hbody fuel init s Hs Hm. unfold for_loop.
  pose proof (while_loop_outcome (λ p, I p.1 p.2) (λ p, B p.2)
                (λ p, m p.1) (λ p : Z * S, cond p.1)
                (λ p, f ← body p.1 p.2;
                      match f with
                      | Continue s' => Ret (Continue (next p.1, s'))
                      | Break s' => Ret (Break (p.1, s'))
                      end)) as Hrule.
  specialize (Hrule ltac:(
    intros [x t] Ht Hc; simpl in *;
    destruct (Hbody x t Ht Hc) as [Hlt Hb];
    destruct (body x t) as [[s'|s']| |]; simpl;
    first [done | lia | split; [done | lia]]) fuel (init, s) Hs Hm).
  destruct (while_loop _ _ _ _) as [r| |]; simpl; try done.
  destruct Hrule as [[Hi Hc]|Hb]; [left; eauto | by right].
Qed.
End PartialForRules.

(** ** The Worley module: the nearest seed *)


(** ** The Worley module: uniform seeds *)




(** ** The Worley module: the helpers of the sampler *)

(** X3. Taken from an empty array, the random element is [undefined] and
    the array stays empty; taken from a non-empty array, with a draw in
    [[0, 1)], it is one of the elements, and what is left is the array
    without that element. One draw is made in both cases. *)
Theorem removeAndReturnRandomElement_spec (random : nat → Q)
    (arr : list Vector2.t) (k : nat) :
  (∀ k, (0 <= random k)%Q ∧ (random k < 1)%Q) →
  (arr = [] →
     removeAndReturnRandomElement random arr k = (None, [], S k)) ∧
  (arr ≠ [] →
     ∃ i p, arr !! i = Some p ∧
            removeAndReturnRandomElement random arr k
              = (Some p, delete i arr, S k) ∧
            arr ≡ₚ p :: delete i arr).
Proof.
  intros Hrange. split.
  - intros ->. unfold removeAndReturnRandomElement, splice1. simpl.
    destruct (_ <? _); simpl; by rewrite ?Z.max_r, ?Z.min_r by lia.
  - intros Hne. unfold removeAndReturnRandomElement, splice1.
    assert (0 < length arr)%nat as Hlen by (destruct arr; [done | simpl; lia]).
    pose proof (random_index random Hrange k (length arr) Hlen) as Hidx.
    set (start := Math_floor _) in *.
    destruct (Z.ltb_spec start 0); [lia|]. rewrite Z.min_l by lia.
    destruct (lookup_lt_is_Some_2 arr (Z.to_nat start)) as [p Hp]; [lia|].
    exists (Z.to_nat start), p. simpl. rewrite Hp.
    split; [done|]. split; [done|]. by apply delete_Permutation.
Qed.

(** X3 on an array of two points. *)
Lemma removeAndReturnRandomElement_spec_witness :
  (∀ k, (0 <= half_random k)%Q ∧ (half_random k < 1)%Q) ∧
  ([Vector2.mk 1 2; Vector2.mk 3 4] ≠ [] →
     ∃ i p, [Vector2.mk 1 2; Vector2.mk 3 4] !! i = Some p ∧
            removeAndReturnRandomElement half_random
              [Vector2.mk 1 2; Vector2.mk 3 4] 0
              = (Some p, delete i [Vector2.mk 1 2; Vector2.mk 3 4], 1%nat) ∧
            [Vector2.mk 1 2; Vector2.mk 3 4]
              ≡ₚ p :: delete i [Vector2.mk 1 2; Vector2.mk 3 4]).
Proof.
  assert (∀ k, (0 <= half_random k)%Q ∧ (half_random k < 1)%Q) as H0.
  { intros k. split; [discriminate | reflexivity]. }
  exact (conj H0
    (proj2 (removeAndReturnRandomElement_spec half_random
              [Vector2.mk 1 2; Vector2.mk 3 4] 0%nat H0))).
Defined.

(** X4. After [putInGrid] the cell of the point holds the point, whatever
    it held before, and every other cell holds what it held. *)
Theorem putInGrid_lookup (grid : gmap Z (gmap Z Vector2.t))
    (point : Vector2.t) (cellSize : Q) (x y : Z) :
  let gx := Math_floor (Vector2.x point / cellSize) in
  let gy := Math_floor (Vector2.y point / cellSize) in
  grid_lookup (putInGrid grid point cellSize) x y =
  if decide (x = gx ∧ y = gy) then Some point else grid_lookup grid x y.
Proof.
  intros gx gy. unfold putInGrid, grid_lookup. fold gx gy.
  destruct (decide (x = gx)) as [->|Hx].
  - rewrite lookup_insert_eq. simpl.
    destruct (decide (y = gy)) as [->|Hy].
    + rewrite lookup_insert_eq. by rewrite decide_True.
    + rewrite lookup_insert_ne by done. rewrite decide_False by lia.
      destruct (grid !! gx) as [col|] eqn:Hcol; simpl.
      * by rewrite Hcol.
      * by rewrite lookup_insert_eq.
  - rewrite lookup_insert_ne by done. rewrite decide_False by lia.
    destruct (grid !! gx); [done|]. by rewrite lookup_insert_ne.
Qed.








(** ** Poisson-disk sampling: where the points are *)

Section PoissonWithin.
Variable Math_sqrt Math_cos Math_sin : Q → Q.
Variable Math_PI : Q.
Variable random : nat → Q.
Variable width height numPoints : Z.
Variable minDist cellSize : Q.
Variable seed : Vector2.t.



End PoissonWithin.





(** ** THREE.Terrain.js: the easing curves *)

Section EasingFacts.
Open Scope Q_scope.




End EasingFacts.

(** ** DiamondSquare: the draws and the first corner *)

Lemma hm_set_inv (h h' : gmap Z (gmap Z Q)) i j v :
  hm_set h i j v = Ret h' →
  ∀ a b, hm_lookup h' a b =
         if decide (a = i ∧ b = j) then Some v else hm_lookup h a b.
Proof.
  intros Hset.
  destruct (h !! i) as [row|] eqn:Hrow.
  - destruct (hm_set_spec h i j v) as (h'' & Hset' & _ & Hval); [eauto|].
    rewrite Hset in Hset'. by injection Hset' as <-.
  - unfold hm_set in Hset. by rewrite Hrow in Hset.
Qed.

Lemma outcome_bind_inv {A B : Type} (m : outcome A) (f : A → outcome B) b :
  m ≫= f = Ret b → ∃ a, m = Ret a ∧ f a = Ret b.
Proof. destruct m as [a| |]; [eauto | done | done]. Qed.

Section Counting.
Variable random : nat → Q.
Variable options : Options.
Variable segments : Z.

Hypothesis segments_pos : 0 < segments.

(** A square step makes one draw and writes away from the corner. *)
Lemma DiamondSquare_square_effect half whole x y st st' :
  0 ≤ x → 0 < half →
  DiamondSquare_square random options half whole x y st = Ret st' →
  rng st' = S (rng st) ∧
  hm_lookup (heightmap st') 0 0 = hm_lookup (heightmap st) 0 0.
Proof.
  intros Hx Hhalf. unfold DiamondSquare_square.
  destruct (hm_get _ x y); try done. simpl.
  destruct (hm_get _ (x + whole) y); try done. simpl.
  destruct (hm_get _ x (y + whole)); try done. simpl.
  destruct (hm_get _ (x + whole) (y + whole)); try done. simpl.
  destruct (hm_set _ _ _ _) as [h| |] eqn:Hset; try done. simpl.
  intros [= <-]. simpl. split; [done|].
  rewrite (hm_set_inv _ _ _ _ _ Hset). by rewrite decide_False by lia.
Qed.

(** A diamond step makes one draw, and does not write to the corner unless
    it is run at the corner. *)
Lemma DiamondSquare_diamond_effect half x y st st' :
  0 ≤ x → 0 ≤ y → (x = 0 → 0 < y) →
  DiamondSquare_diamond random options segments (segments + 1) half x y st
    = Ret st' →
  rng st' = S (rng st) ∧
  hm_lookup (heightmap st') 0 0 = hm_lookup (heightmap st) 0 0.
Proof using segments_pos.
  intros Hx Hy Hcorner Hrun. unfold DiamondSquare_diamond in Hrun.
  apply outcome_bind_inv in Hrun as (a & _ & Hrun).
  apply outcome_bind_inv in Hrun as (b & _ & Hrun).
  apply outcome_bind_inv in Hrun as (c & _ & Hrun).
  apply outcome_bind_inv in Hrun as (e & _ & Hrun).
  apply outcome_bind_inv in Hrun as (h1 & Hset1 & Hrun).
  apply outcome_bind_inv in Hrun as (h2 & Hset2 & Hrun).
  apply outcome_bind_inv in Hrun as (h3 & Hset3 & Hrun).
  injection Hrun as <-. simpl. split; [done|].
  pose proof (hm_set_inv _ _ _ _ _ Hset1) as Hval1.
  assert (hm_lookup h2 0 0 = hm_lookup h1 0 0) as Hval2.
  { destruct (x =? 0); [|by injection Hset2 as <-].
    rewrite (hm_set_inv _ _ _ _ _ Hset2). by rewrite decide_False by lia. }
  assert (hm_lookup h3 0 0 = hm_lookup h2 0 0) as Hval3.
  { destruct (y =? 0); [|by injection Hset3 as <-].
    rewrite (hm_set_inv _ _ _ _ _ Hset3). by rewrite decide_False by lia. }
  rewrite Hval3, Hval2, Hval1. by rewrite decide_False by lia.
Qed.

(** One level, with [q * q] cells: [q * q] draws for the squares and
    [2 * q * q] for the diamonds. *)
Lemma DiamondSquare_level_counted h q n d st :
  0 < h → 0 < q → segments = q * (2 * h) →
  counted segments n d st →
  ∃ st', DiamondSquare_level random options segments (2 * h) st = Ret st' ∧
         counted segments n (d + 3 * q * q) st'.
Proof using segments_pos.
  intros Hh Hq Hseg (Hst & Hcorner & Hrng). unfold DiamondSquare_level.
  rewrite Math_round_half, Math_round_Z.
  set (st0 := {| heightmap := heightmap st;
                 smoothing := (smoothing st / 2)%Q;
                 rng := rng st |}).
  assert (counted segments n d st0) as Hst0 by done.
  clearbody st0. clear Hst Hcorner Hrng st.
  (* the square step *)
  edestruct (for_loop_post
               (λ x s, ∃ c, x = c * (2 * h) ∧ 0 ≤ c ≤ q ∧
                            counted segments n (d + c * q) s)
               (λ _, False)
               (λ x, Z.to_nat (segments - x))
               (counted segments n (d + q * q)))
    as (st1 & -> & Hst1); simpl.
  - intros x s (c & -> & Hc & Hs) Hcx. apply Z.ltb_lt in Hcx.
    assert (c < q) as Hcq by nia. split; [lia|].
    edestruct (for_loop_post
                 (λ y t, ∃ e, y = e * (2 * h) ∧ 0 ≤ e ≤ q ∧
                              counted segments n (d + c * q + e) t)
                 (λ _, False)
                 (λ y, Z.to_nat (segments - y))
                 (counted segments n (d + c * q + q)))
      as (s' & -> & Hs'); simpl.
    + intros y t (e & -> & He & Ht & Htc & Htr) Hcy. apply Z.ltb_lt in Hcy.
      assert (e < q) as Heq by nia. split; [lia|].
      destruct (DiamondSquare_square_sound random options segments
                  h (2 * h) (c * (2 * h)) (e * (2 * h)) t)
        as (t' & Hrun & Ht'); try done; try nia.
      rewrite Hrun. simpl.
      destruct (DiamondSquare_square_effect h (2 * h) (c * (2 * h))
                  (e * (2 * h)) t t' ltac:(nia) Hh Hrun) as [Hr Hc0].
      exists (e + 1). split; [lia|]. split; [lia|].
      split; [done|]. split; [congruence | lia].
    + exists 0. split; [lia|]. split; [lia|].
      by rewrite Z.add_0_r.
    + lia.
    + intros y t (e & -> & He & Ht) Hcy. apply Z.ltb_ge in Hcy.
      by replace e with q in Ht by nia.
    + intros _ [].
    + exists (c + 1). split; [lia|]. split; [lia|].
      by replace (d + (c + 1) * q) with (d + c * q + q) by lia.
  - exists 0. split; [lia|]. split; [lia|]. by rewrite Z.add_0_r.
  - lia.
  - intros x s (c & -> & Hc & Hs) Hcx. apply Z.ltb_ge in Hcx.
    by replace c with q in Hs by nia.
  - intros _ [].
  - (* the diamond step *)
    apply (for_loop_post
             (λ x s, ∃ c, x = c * h ∧ 0 ≤ c ≤ 2 * q ∧
                          counted segments n (d + q * q + c * q) s)
             (λ _, False)
             (λ x, Z.to_nat (segments - x))).
    + intros x s (c & -> & Hc & Hs) Hcx. apply Z.ltb_lt in Hcx.
      assert (c < 2 * q) as Hcq by nia. split; [lia|].
      pose proof (rem_in_range (c * h + h) (2 * h) ltac:(nia) ltac:(lia))
        as Hy0.
      set (y0 := Z.rem (c * h + h) (2 * h)) in *.
      assert (c * h = 0 → 0 < y0) as Hy0pos.
      { intros Hz. unfold y0. rewrite Hz. rewrite Z.rem_small; lia. }
      edestruct (for_loop_post
                   (λ y t, ∃ e, y = y0 + e * (2 * h) ∧ 0 ≤ e ≤ q ∧
                      counted segments n (d + q * q + c * q + e) t)
                   (λ _, False)
                   (λ y, Z.to_nat (segments - y))
                   (counted segments n (d + q * q + c * q + q)))
        as (s' & -> & Hs'); simpl.
      * intros y t (e & -> & He & Ht & Htc & Htr) Hcy. apply Z.ltb_lt in Hcy.
        assert (e < q) as Heq by nia. split; [lia|].
        destruct (DiamondSquare_diamond_sound random options segments
                    h (c * h) (y0 + e * (2 * h)) t)
          as (t' & Hrun & Ht'); try done; try nia.
        rewrite Hrun. simpl.
        destruct (DiamondSquare_diamond_effect h (c * h) (y0 + e * (2 * h))
                    t t' ltac:(nia) ltac:(nia) ltac:(nia) Hrun) as [Hr Hc0].
        exists (e + 1). split; [lia|]. split; [lia|].
        split; [done|]. split; [congruence | lia].
      * exists 0. split; [lia|]. split; [lia|]. by rewrite Z.add_0_r.
      * lia.
      * intros y t (e & -> & He & Ht) Hcy. apply Z.ltb_ge in Hcy.
        by replace e with q in Ht by nia.
      * intros _ [].
      * exists (c + 1). split; [lia|]. split; [lia|].
        by replace (d + q * q + (c + 1) * q)
             with (d + q * q + c * q + q) by lia.
    + exists 0. split; [lia|]. split; [lia|]. by rewrite Z.add_0_r.
    + lia.
    + intros x s (c & -> & Hc & Hs) Hcx. apply Z.ltb_ge in Hcx.
      replace c with (2 * q) in Hs by nia.
      by replace (d + 3 * q * q) with (d + q * q + 2 * q * q) by lia.
    + intros _ [].
Qed.
End Counting.

Lemma DiamondSquare_generate_counted random options
    (h : gmap Z (gmap Z Q)) k n :
  1 ≤ k → zero_grid (2 ^ k) h →
  ∃ st, DiamondSquare_generate random options (2 ^ k) h n = Ret st ∧
        counted (2 ^ k) n (2 ^ k * 2 ^ k - 1) st.
Proof.
  intros Hk Hzero. unfold DiamondSquare_generate.
  pose proof (pow2_pos k ltac:(lia)) as Hpos.
  apply (for_loop_post
           (λ l s, ∃ e, 0 ≤ e ≤ k ∧ l = 2 ^ e ∧
                        counted (2 ^ k) n
                          (2 ^ (k - e) * 2 ^ (k - e) - 1) s)
           (λ _, False) (λ l, Z.to_nat l)).
  - intros l s (e & He & -> & Hs) Hc. apply Z.leb_le in Hc.
    assert (1 ≤ e) as He1.
    { destruct (decide (1 ≤ e)); [done|].
      assert (e = 0) as -> by lia. change (2 ^ 0) with 1 in Hc. lia. }
    pose proof (pow2_double (e - 1) ltac:(lia)) as Hdbl.
    replace (e - 1 + 1) with e in Hdbl by lia.
    pose proof (pow2_pos (e - 1) ltac:(lia)) as Hhalf.
    pose proof (pow2_pos (k - e) ltac:(lia)) as Hq.
    pose proof (pow2_double (k - e) ltac:(lia)) as Hqd.
    split.
    { apply Nat2Z.inj_lt. rewrite !Z2Nat.id by (try apply Z.div_pos; lia).
      apply Z.div_lt; lia. }
    rewrite Hdbl.
    destruct (DiamondSquare_level_counted random options (2 ^ k) Hpos
                (2 ^ (e - 1)) (2 ^ (k - e)) n
                (2 ^ (k - e) * 2 ^ (k - e) - 1) s)
      as (s' & -> & Hs'); try done.
    + rewrite <- Hdbl, <- Z.pow_add_r by lia. f_equal. lia.
    + simpl. exists (e - 1). split; [lia|]. split.
      * rewrite Z.mul_comm, Z.div_mul by lia. done.
      * replace (k - (e - 1)) with (k - e + 1) by lia. rewrite Hqd.
        by replace (2 * 2 ^ (k - e) * (2 * 2 ^ (k - e)) - 1)
             with (2 ^ (k - e) * 2 ^ (k - e) - 1
                   + 3 * 2 ^ (k - e) * 2 ^ (k - e)) by lia.
  - exists k. split; [lia|]. split; [done|].
    rewrite Z.sub_diag. change (2 ^ 0 * 2 ^ 0 - 1) with 0.
    split; [by apply zero_grid_sound|]. split; simpl; [|lia].
    destruct Hzero as [_ Hval]. rewrite Hval. by rewrite decide_True by lia.
  - lia.
  - intros l s (e & He & -> & Hs) Hc. apply Z.leb_gt in Hc.
    assert (e = 0) as ->.
    { destruct (decide (e = 0)); [done|].
      assert (2 ^ 1 ≤ 2 ^ e) by (apply pow2_le_mono; lia).
      change (2 ^ 1) with 2 in *. lia. }
    by rewrite Z.sub_0_r in Hs.
  - intros _ [].
Qed.

Lemma DiamondSquare_scratch_counted random options n :
  ∃ segments st,
    DiamondSquare_segments options = Ret segments ∧
    DiamondSquare_scratch random options n = Ret (segments, st) ∧
    Z.max (xSegments options) (ySegments options) + 1 ≤ segments ∧
    counted segments n (segments * segments - 1) st.
Proof.
  unfold DiamondSquare_scratch.
  destruct (DiamondSquare_segments_exponent options)
    as (k & -> & Hk & Hge & _). simpl.
  pose proof (pow2_pos k ltac:(lia)) as Hpos.
  destruct (DiamondSquare_init_zero (2 ^ k)) as (h & -> & Hzero); [lia|].
  simpl.
  destruct (DiamondSquare_generate_counted random options h k n)
    as (st & -> & Hst); try done.
  simpl. eauto 10.
Qed.

(** X12. [DiamondSquare] makes [segments * segments - 1] draws from
    [Math.random], [segments] being the side of its scratch grid: one per
    square and one per diamond, whatever the size of the target grid
    inside the scratch grid. *)
Theorem DiamondSquare_draws (random : nat → Q) (g : list Q)
    (options : Options) (n : nat) :
  0 ≤ xSegments options → 0 ≤ ySegments options →
  (xSegments options + 1) * (ySegments options + 1) ≤ Z.of_nat (length g) →
  ∃ segments g' n',
    DiamondSquare_segments options = Ret segments ∧
    DiamondSquare random g options n = Ret (g', n') ∧
    Z.of_nat n' = Z.of_nat n + segments * segments - 1.
Proof.
  intros Hx Hy Hlen.
  destruct (DiamondSquare_scratch_counted random options n)
    as (segments & st & Hseg & Hrun & Hge & (Hfull & _) & _ & Hrng).
  destruct (DiamondSquare_apply_applied options (heightmap st) g segments)
    as (g' & Happly & _); [lia | lia | done | done |].
  exists segments, g', (rng st). split; [done|]. split; [|lia].
  unfold DiamondSquare. rewrite Hrun. simpl. by rewrite Happly.
Qed.

(** X12 on nine vertices and a grid of 2 by 2 segments. *)
Lemma DiamondSquare_draws_witness :
  0 ≤ xSegments options_2x2 ∧ 0 ≤ ySegments options_2x2 ∧
  (xSegments options_2x2 + 1) * (ySegments options_2x2 + 1)
    ≤ Z.of_nat (length (replicate 9 1%Q)) ∧
  ∃ segments g' n',
    DiamondSquare_segments options_2x2 = Ret segments ∧
    DiamondSquare sample_random (replicate 9 1%Q) options_2x2 0
      = Ret (g', n') ∧
    Z.of_nat n' = Z.of_nat 0 + segments * segments - 1.
Proof.
  assert (0 ≤ xSegments options_2x2) as H1 by (simpl; lia).
  assert (0 ≤ ySegments options_2x2) as H2 by (simpl; lia).
  assert ((xSegments options_2x2 + 1) * (ySegments options_2x2 + 1)
            ≤ Z.of_nat (length (replicate 9 1%Q))) as H3 by (simpl; lia).
  exact (conj H1 (conj H2 (conj H3
    (DiamondSquare_draws sample_random (replicate 9 1%Q) options_2x2 0
       H1 H2 H3)))).
Defined.

(** X13. [DiamondSquare] never writes the corner [(0, 0)] of its scratch
    heightmap, so that the first vertex always receives the clamped
    zero: with [minHeight <= 0 <= maxHeight] its elevation does not
    change, whatever the draws. *)
Theorem DiamondSquare_first_vertex (random : nat → Q) (g : list Q)
    (options : Options) (n : nat) :
  0 ≤ xSegments options → 0 ≤ ySegments options →
  (xSegments options + 1) * (ySegments options + 1) ≤ Z.of_nat (length g) →
  ∃ g' n' z,
    DiamondSquare random g options n = Ret (g', n') ∧
    g !! 0%nat = Some z ∧
    g' !! 0%nat
      = Some (z + clamp 0 (minHeight options) (maxHeight options))%Q ∧
    ((minHeight options <= 0)%Q → (0 <= maxHeight options)%Q →
     g' !! 0%nat = Some (z + 0)%Q).
Proof.
  intros Hx Hy Hlen.
  destruct (DiamondSquare_scratch_counted random options n)
    as (segments & st & Hseg & Hrun & Hge & (Hfull & _) & Hcorner & _).
  destruct (DiamondSquare_apply_applied options (heightmap st) g segments)
    as (g' & Happly & _ & Hadd & _); [lia | lia | done | done |].
  destruct (lookup_lt_is_Some_2 g 0) as [z Hz]; [nia|].
  exists g', (rng st), z. split.
  { unfold DiamondSquare. rewrite Hrun. simpl. by rewrite Happly. }
  split; [done|].
  assert (g' !! 0%nat
          = Some (z + clamp 0 (minHeight options) (maxHeight options))%Q)
    as Hfirst.
  { apply (Hadd 0 0 z 0%Q); [split; lia | done | done]. }
  split; [done|]. intros Hlo Hhi. rewrite Hfirst. unfold clamp.
  destruct (Qltb 0 (minHeight options)) eqn:H1; [apply Qltb_lt in H1; lra|].
  destruct (Qltb (maxHeight options) 0) eqn:H2; [apply Qltb_lt in H2; lra|].
  done.
Qed.

(** X13 on nine vertices and a grid of 2 by 2 segments. *)
Lemma DiamondSquare_first_vertex_witness :
  0 ≤ xSegments options_2x2 ∧ 0 ≤ ySegments options_2x2 ∧
  (xSegments options_2x2 + 1) * (ySegments options_2x2 + 1)
    ≤ Z.of_nat (length (replicate 9 1%Q)) ∧
  ∃ g' n' z,
    DiamondSquare sample_random (replicate 9 1%Q) options_2x2 0
      = Ret (g', n') ∧
    replicate 9 1%Q !! 0%nat = Some z ∧
    g' !! 0%nat
      = Some (z + clamp 0 (minHeight options_2x2) (maxHeight options_2x2))%Q ∧
    ((minHeight options_2x2 <= 0)%Q → (0 <= maxHeight options_2x2)%Q →
     g' !! 0%nat = Some (z + 0)%Q).
Proof.
  assert (0 ≤ xSegments options_2x2) as H1 by (simpl; lia).
  assert (0 ≤ ySegments options_2x2) as H2 by (simpl; lia).
  assert ((xSegments options_2x2 + 1) * (ySegments options_2x2 + 1)
            ≤ Z.of_nat (length (replicate 9 1%Q))) as H3 by (simpl; lia).
  exact (conj H1 (conj H2 (conj H3
    (DiamondSquare_first_vertex sample_random (replicate 9 1%Q) options_2x2 0
       H1 H2 H3)))).
Defined.



(** ** DiamondSquare: too few vertices *)

Section ApplyShort.
Variable options : Options.
Variable hm : gmap Z (gmap Z Q).
Variable g : list Q.
Variable segments : Z.

Hypothesis Hx : 0 ≤ xSegments options < segments.
Hypothesis Hy : 0 ≤ ySegments options < segments.
Hypothesis Hfull : full segments hm.

Lemma DiamondSquare_apply_column i g1 :
  0 ≤ i < xSegments options + 1 →
  present options g i 0 g1 →
  match for_loop (Z.to_nat (ySegments options + 1)) 0
          (λ j, j <? ySegments options + 1) Z.succ
          (λ j g,
             h ← hm_get hm i j;
             g ← add_z g (j * (xSegments options + 1) + i)
                   (clamp h (minHeight options) (maxHeight options));
             Ret (Continue g))
          g1 with
  | Ret g2 => present options g (Z.succ i) 0 g2
  | Raise => True
  | OutOfFuel => False
  end.
Proof using Hx Hy Hfull.
  intros Hi Hg1.
  pose proof (for_loop_outcome
    (λ j g', 0 ≤ j ≤ ySegments options + 1 ∧ present options g i j g')
    (λ _, False) (λ j, Z.to_nat (ySegments options + 1 - j))
    (λ j, j <? ySegments options + 1) Z.succ
    (λ j g,
       h ← hm_get hm i j;
       g ← add_z g (j * (xSegments options + 1) + i)
             (clamp h (minHeight options) (maxHeight options));
       Ret (Continue g))) as Hloop.
  assert (∀ j g2,
            0 ≤ j ≤ ySegments options + 1 ∧ present options g i j g2 →
            (j <? ySegments options + 1) = true →
            (Z.to_nat (ySegments options + 1 - Z.succ j)
             < Z.to_nat (ySegments options + 1 - j))%nat ∧
            match
              h ← hm_get hm i j;
              g ← add_z g2 (j * (xSegments options + 1) + i)
                    (clamp h (minHeight options) (maxHeight options));
              Ret (Continue g)
            with
            | Ret (Continue s') =>
                0 ≤ Z.succ j ≤ ySegments options + 1 ∧ present options g i (Z.succ j) s'
            | Ret (Break s') => False
            | Raise => True
            | OutOfFuel => False
            end) as Hbody.
  { intros j g2 (Hj & Hlen2 & Hseen2) Hcj. apply Z.ltb_lt in Hcj.
    split; [lia|].
    destruct (hm_get_Some hm i j) as [h ->]; [apply Hfull; lia|].
    simpl. unfold add_z.
    destruct (Z.ltb_spec (j * (xSegments options + 1) + i) 0); [nia|].
    destruct (g2 !! Z.to_nat (j * (xSegments options + 1) + i))
      as [z|] eqn:Hz; simpl; [|done].
    split; [lia|]. split; [by rewrite length_insert|].
    intros i' j' [Hb|[-> Hj']]; [apply Hseen2; by left|].
    destruct (decide (j' = j)) as [->|].
    - apply lookup_lt_Some in Hz. lia.
    - apply Hseen2. right. lia. }
  assert (0 ≤ 0 ≤ ySegments options + 1 ∧ present options g i 0 g1) as Hstart
    by (split; [lia | done]).
  assert (Z.to_nat (ySegments options + 1 - 0)
          ≤ Z.to_nat (ySegments options + 1))%nat as Hfuel by lia.
  specialize (Hloop Hbody (Z.to_nat (ySegments options + 1)) 0 g1
                Hstart Hfuel).
  destruct (for_loop _ _ _ _ _ g1) as [g2| |]; try done.
  destruct Hloop as [(j & (Hj & Hlen2 & Hseen2) & Hcj)|[]].
  apply Z.ltb_ge in Hcj. split; [done|].
  intros i' j' [[Hi' Hj']|[-> Hj']]; [|lia].
  apply Hseen2. destruct (decide (i' = i)) as [->|].
  - right. lia.
  - left. split; lia.
Qed.

Lemma DiamondSquare_apply_short :
  Z.of_nat (length g) < (xSegments options + 1) * (ySegments options + 1) →
  DiamondSquare_apply options hm g = Raise.
Proof using Hx Hy Hfull.
  intros Hshort. unfold DiamondSquare_apply.
  pose proof (for_loop_outcome
    (λ i g', 0 ≤ i ≤ xSegments options + 1 ∧ present options g i 0 g')
    (λ _, False) (λ i, Z.to_nat (xSegments options + 1 - i))
    (λ i, i <? xSegments options + 1) Z.succ
    (λ i g,
       g ← for_loop (Z.to_nat (ySegments options + 1)) 0
             (λ j, j <? ySegments options + 1) Z.succ
             (λ j g,
                h ← hm_get hm i j;
                g ← add_z g (j * (xSegments options + 1) + i)
                      (clamp h (minHeight options) (maxHeight options));
                Ret (Continue g))
             g;
       Ret (Continue g))) as Hloop.
  assert (∀ i g1,
            0 ≤ i ≤ xSegments options + 1 ∧ present options g i 0 g1 →
            (i <? xSegments options + 1) = true →
            (Z.to_nat (xSegments options + 1 - Z.succ i)
             < Z.to_nat (xSegments options + 1 - i))%nat ∧
            match
              g ← for_loop (Z.to_nat (ySegments options + 1)) 0
                    (λ j, j <? ySegments options + 1) Z.succ
                    (λ j g,
                       h ← hm_get hm i j;
                       g ← add_z g (j * (xSegments options + 1) + i)
                             (clamp h (minHeight options) (maxHeight options));
                       Ret (Continue g))
                    g1;
              Ret (Continue g)
            with
            | Ret (Continue s') =>
                0 ≤ Z.succ i ≤ xSegments options + 1 ∧ present options g (Z.succ i) 0 s'
            | Ret (Break s') => False
            | Raise => True
            | OutOfFuel => False
            end) as Hbody.
  { intros i g1 (Hi & Hg1) Hc. apply Z.ltb_lt in Hc. split; [lia|].
    pose proof (DiamondSquare_apply_column i g1 ltac:(lia) Hg1) as Hcol.
    destruct (for_loop _ _ _ _ _ g1) as [g2| |]; simpl; try done.
    split; [lia | done]. }
  assert (0 ≤ 0 ≤ xSegments options + 1 ∧ present options g 0 0 g) as Hstart.
  { split; [lia|]. split; [done|]. intros i' j' [[? ?]|[? ?]]; lia. }
  assert (Z.to_nat (xSegments options + 1 - 0)
          ≤ Z.to_nat (xSegments options + 1))%nat as Hfuel by lia.
  specialize (Hloop Hbody (Z.to_nat (xSegments options + 1)) 0 g
                Hstart Hfuel).
  destruct (for_loop _ _ _ _ _ g) as [g'| |]; try done.
  destruct Hloop as [(i & (Hi & _ & Hseen) & Hc)|[]].
  apply Z.ltb_ge in Hc.
  specialize (Hseen (xSegments options) (ySegments options)).
  specialize (Hseen ltac:(left; split; lia)). nia.
Qed.
End ApplyShort.

(** X15. Handed fewer vertices than the grid has, [DiamondSquare] fails
    with a [TypeError] on the first vertex that is missing: it does not
    return. *)
Theorem DiamondSquare_short_raises (random : nat → Q) (g : list Q)
    (options : Options) (n : nat) :
  0 ≤ xSegments options → 0 ≤ ySegments options →
  Z.of_nat (length g) < (xSegments options + 1) * (ySegments options + 1) →
  DiamondSquare random g options n = Raise.
Proof.
  intros Hx Hy Hshort.
  destruct (DiamondSquare_scratch_sound random options n)
    as (segments & st & Hrun & Hge & Hfull & _).
  unfold DiamondSquare. rewrite Hrun. simpl.
  rewrite (DiamondSquare_apply_short options (heightmap st) g segments);
    [done | lia | lia | done | done].
Qed.

(** X15 on eight vertices and a grid of 2 by 2 segments, which has nine. *)
Lemma DiamondSquare_short_raises_witness :
  0 ≤ xSegments options_2x2 ∧ 0 ≤ ySegments options_2x2 ∧
  Z.of_nat (length (replicate 8 1%Q))
    < (xSegments options_2x2 + 1) * (ySegments options_2x2 + 1) ∧
  DiamondSquare sample_random (replicate 8 1%Q) options_2x2 0 = Raise.
Proof.
  assert (0 ≤ xSegments options_2x2) as H1 by (simpl; lia).
  assert (0 ≤ ySegments options_2x2) as H2 by (simpl; lia).
  assert (Z.of_nat (length (replicate 8 1%Q))
            < (xSegments options_2x2 + 1) * (ySegments options_2x2 + 1)) as H3
    by (simpl; lia).
  exact (conj H1 (conj H2 (conj H3
    (DiamondSquare_short_raises sample_random (replicate 8 1%Q) options_2x2 0
       H1 H2 H3)))).
Defined.

(** ** MultiPass: no pass, two passes *)

(** X16. Without passes, [MultiPass] changes nothing: the vertices, the
    options and the draws are as they were. *)
Theorem MultiPass_no_passes (g : list Q) (options : Options) (n : nat) :
  MultiPass g options [] n = Ret (g, options, n).
Proof. by destruct options. Qed.



(** ** Heightmap images: the pixels and the elevations *)

Lemma to_uint8_clamped_range (v : Z) : 0 ≤ to_uint8_clamped v ≤ 255.
Proof. unfold to_uint8_clamped. lia. Qed.

Lemma grey_level_monotone (options : Options) (z1 z2 : Q) :
  (minHeight options < maxHeight options)%Q → (z1 <= z2)%Q →
  grey_level options z1 ≤ grey_level options z2.
Proof.
  intros Hband Hz. unfold grey_level, to_uint8_clamped, Math_round.
  set (s := (maxHeight options - minHeight options)%Q).
  assert (0 < s)%Q as Hs by (unfold s; lra).
  assert ((z1 - minHeight options) / s <= (z2 - minHeight options) / s)%Q
    as Hdiv.
  { apply Qmult_le_compat_r; [lra|]. apply Qlt_le_weak, Qinv_lt_0_compat, Hs. }
  assert (Qfloor ((z1 - minHeight options) / s * 255 + (1 # 2))
          ≤ Qfloor ((z2 - minHeight options) / s * 255 + (1 # 2)))
    by (apply Qfloor_resp_le; lra).
  lia.
Qed.

(** X18. [toHeightmap] paints one opaque grey pixel per vertex: the three
    colour bytes are equal and between 0 and 255, the fourth byte is 255,
    and the buffer has four bytes per vertex of the grid. With
    [minHeight < maxHeight] a higher vertex never gets a darker pixel. *)
Theorem toHeightmap_pixels (g : list Q) (options : Options) :
  0 ≤ xSegments options → 0 ≤ ySegments options →
  (xSegments options + 1) * (ySegments options + 1) ≤ Z.of_nat (length g) →
  (minHeight options < maxHeight options)%Q →
  ∃ data,
    toHeightmap g options = Ret data ∧
    Z.of_nat (length data)
      = (xSegments options + 1) * (ySegments options + 1) * 4 ∧
    (∀ i, 0 ≤ i < (xSegments options + 1) * (ySegments options + 1) →
       ∃ v, 0 ≤ v ≤ 255 ∧
            data !! Z.to_nat (i * 4) = Some v ∧
            data !! Z.to_nat (i * 4 + 1) = Some v ∧
            data !! Z.to_nat (i * 4 + 2) = Some v ∧
            data !! Z.to_nat (i * 4 + 3) = Some 255) ∧
    (∀ i1 i2 z1 z2 v1 v2,
       0 ≤ i1 < (xSegments options + 1) * (ySegments options + 1) →
       0 ≤ i2 < (xSegments options + 1) * (ySegments options + 1) →
       g !! Z.to_nat i1 = Some z1 → g !! Z.to_nat i2 = Some z2 →
       (z1 <= z2)%Q →
       data !! Z.to_nat (i1 * 4) = Some v1 →
       data !! Z.to_nat (i2 * 4) = Some v2 →
       v1 ≤ v2).
Proof.
  intros Hx Hy Hlen Hband.
  destruct (toHeightmap_painted options Hx Hy g Hlen)
    as (data & Hrun & Hsize & Hpaint).
  exists data. split; [done|]. split; [done|]. split.
  - intros i Hi.
    destruct (lookup_lt_is_Some_2 g (Z.to_nat i)) as [z Hz]; [lia|].
    destruct (Hpaint i z Hi Hz) as (H0 & H1 & H2 & H3).
    exists (grey_level options z). split; [|done].
    apply to_uint8_clamped_range.
  - intros i1 i2 z1 z2 v1 v2 Hi1 Hi2 Hz1 Hz2 Hle Hv1 Hv2.
    destruct (Hpaint i1 z1 Hi1 Hz1) as (H1 & _).
    destruct (Hpaint i2 z2 Hi2 Hz2) as (H2 & _).
    rewrite H1 in Hv1. rewrite H2 in Hv2.
    injection Hv1 as <-. injection Hv2 as <-.
    by apply grey_level_monotone.
Qed.

(** X18 on the four elevations of a grid of a single segment. *)
Lemma toHeightmap_pixels_witness :
  0 ≤ xSegments options_1x1 ∧ 0 ≤ ySegments options_1x1 ∧
  (xSegments options_1x1 + 1) * (ySegments options_1x1 + 1)
    ≤ Z.of_nat (length sample_elevations) ∧
  (minHeight options_1x1 < maxHeight options_1x1)%Q ∧
  ∃ data,
    toHeightmap sample_elevations options_1x1 = Ret data ∧
    Z.of_nat (length data)
      = (xSegments options_1x1 + 1) * (ySegments options_1x1 + 1) * 4 ∧
    (∀ i, 0 ≤ i < (xSegments options_1x1 + 1) * (ySegments options_1x1 + 1) →
       ∃ v, 0 ≤ v ≤ 255 ∧
            data !! Z.to_nat (i * 4) = Some v ∧
            data !! Z.to_nat (i * 4 + 1) = Some v ∧
            data !! Z.to_nat (i * 4 + 2) = Some v ∧
            data !! Z.to_nat (i * 4 + 3) = Some 255) ∧
    (∀ i1 i2 z1 z2 v1 v2,
       0 ≤ i1 < (xSegments options_1x1 + 1) * (ySegments options_1x1 + 1) →
       0 ≤ i2 < (xSegments options_1x1 + 1) * (ySegments options_1x1 + 1) →
       sample_elevations !! Z.to_nat i1 = Some z1 →
       sample_elevations !! Z.to_nat i2 = Some z2 →
       (z1 <= z2)%Q →
       data !! Z.to_nat (i1 * 4) = Some v1 →
       data !! Z.to_nat (i2 * 4) = Some v2 →
       v1 ≤ v2).
Proof.
  assert (0 ≤ xSegments options_1x1) as H1 by (simpl; lia).
  assert (0 ≤ ySegments options_1x1) as H2 by (simpl; lia).
  assert ((xSegments options_1x1 + 1) * (ySegments options_1x1 + 1)
            ≤ Z.of_nat (length sample_elevations)) as H3 by (simpl; lia).
  assert (minHeight options_1x1 < maxHeight options_1x1)%Q as H4
    by reflexivity.
  exact (conj H1 (conj H2 (conj H3 (conj H4
    (toHeightmap_pixels sample_elevations options_1x1 H1 H2 H3 H4))))).
Defined.

(** X19. [fromHeightmap] overwrites the elevation of every vertex of the
    grid with [(R + G + B) / 765] times the width of the band, whatever
    the elevation was, and leaves the vertices beyond the grid alone. For
    bytes between 0 and 255 and [minHeight <= maxHeight] the elevations
    it sets lie between [0] and [maxHeight - minHeight]. *)
Theorem fromHeightmap_overwrites (data : list Z) (g : list Q)
    (options : Options) :
  0 ≤ xSegments options → 0 ≤ ySegments options →
  (xSegments options + 1) * (ySegments options + 1) ≤ Z.of_nat (length g) →
  (xSegments options + 1) * (ySegments options + 1) * 4
    ≤ Z.of_nat (length data) →
  Forall (λ b, 0 ≤ b ≤ 255) data →
  (minHeight options <= maxHeight options)%Q →
  ∃ g',
    fromHeightmap data g options = Ret g' ∧
    length g' = length g ∧
    (∀ i, 0 ≤ i < (xSegments options + 1) * (ySegments options + 1) →
       ∃ r gr b,
         data !! Z.to_nat (i * 4) = Some r ∧
         data !! Z.to_nat (i * 4 + 1) = Some gr ∧
         data !! Z.to_nat (i * 4 + 2) = Some b ∧
         g' !! Z.to_nat i
           = Some (inject_Z (r + gr + b) / 765
                   * (maxHeight options - minHeight options))%Q ∧
         (0 <= inject_Z (r + gr + b) / 765
               * (maxHeight options - minHeight options))%Q ∧
         (inject_Z (r + gr + b) / 765
            * (maxHeight options - minHeight options)
          <= maxHeight options - minHeight options)%Q) ∧
    (∀ i : nat,
       (xSegments options + 1) * (ySegments options + 1) ≤ Z.of_nat i →
       g' !! i = g !! i).
Proof.
  intros Hx Hy Hlen Hdata Hbytes Hband.
  destruct (fromHeightmap_imported options Hx Hy data g Hlen Hdata)
    as (g' & Hrun & Hlen' & Hread & Hrest).
  exists g'. split; [done|]. split; [done|]. split; [|done].
  intros i Hi.
  destruct (lookup_lt_is_Some_2 data (Z.to_nat (i * 4))) as [r Hr]; [lia|].
  destruct (lookup_lt_is_Some_2 data (Z.to_nat (i * 4 + 1))) as [gr Hgr];
    [lia|].
  destruct (lookup_lt_is_Some_2 data (Z.to_nat (i * 4 + 2))) as [b Hb];
    [lia|].
  exists r, gr, b. split; [done|]. split; [done|]. split; [done|].
  split; [exact (Hread i r gr b Hi Hr Hgr Hb)|].
  rewrite Forall_lookup in Hbytes.
  pose proof (Hbytes _ _ Hr). pose proof (Hbytes _ _ Hgr).
  pose proof (Hbytes _ _ Hb).
  set (s := (maxHeight options - minHeight options)%Q).
  assert (0 <= s)%Q as Hs by (unfold s; lra).
  assert (0 <= inject_Z (r + gr + b))%Q as Hlo
    by (rewrite <- (Zle_Qle 0); lia).
  assert (inject_Z (r + gr + b) <= 765)%Q as Hhi
    by (change 765%Q with (inject_Z 765); rewrite <- Zle_Qle; lia).
  assert (0 <= inject_Z (r + gr + b) / 765)%Q as Hp0
    by (apply Qle_shift_div_l; lra).
  assert (inject_Z (r + gr + b) / 765 <= 1)%Q as Hp1
    by (apply Qle_shift_div_r; lra).
  split.
  - apply Qmult_le_0_compat; done.
  - rewrite <- (Qmult_1_l s) at 2. apply Qmult_le_compat_r; done.
Qed.

(** X19 on the pixels of four elevations. *)
Lemma fromHeightmap_overwrites_witness :
  0 ≤ xSegments options_1x1 ∧ 0 ≤ ySegments options_1x1 ∧
  (xSegments options_1x1 + 1) * (ySegments options_1x1 + 1)
    ≤ Z.of_nat (length sample_elevations) ∧
  (xSegments options_1x1 + 1) * (ySegments options_1x1 + 1) * 4
    ≤ Z.of_nat (length sample_pixels) ∧
  Forall (λ b, 0 ≤ b ≤ 255) sample_pixels ∧
  (minHeight options_1x1 <= maxHeight options_1x1)%Q ∧
  ∃ g',
    fromHeightmap sample_pixels sample_elevations options_1x1 = Ret g' ∧
    length g' = length sample_elevations ∧
    (∀ i, 0 ≤ i < (xSegments options_1x1 + 1) * (ySegments options_1x1 + 1) →
       ∃ r gr b,
         sample_pixels !! Z.to_nat (i * 4) = Some r ∧
         sample_pixels !! Z.to_nat (i * 4 + 1) = Some gr ∧
         sample_pixels !! Z.to_nat (i * 4 + 2) = Some b ∧
         g' !! Z.to_nat i
           = Some (inject_Z (r + gr + b) / 765
                   * (maxHeight options_1x1 - minHeight options_1x1))%Q ∧
         (0 <= inject_Z (r + gr + b) / 765
               * (maxHeight options_1x1 - minHeight options_1x1))%Q ∧
         (inject_Z (r + gr + b) / 765
            * (maxHeight options_1x1 - minHeight options_1x1)
          <= maxHeight options_1x1 - minHeight options_1x1)%Q) ∧
    (∀ i : nat,
       (xSegments options_1x1 + 1) * (ySegments options_1x1 + 1) ≤ Z.of_nat i →
       g' !! i = sample_elevations !! i).
Proof.
  assert (0 ≤ xSegments options_1x1) as H1 by (simpl; lia).
  assert (0 ≤ ySegments options_1x1) as H2 by (simpl; lia).
  assert ((xSegments options_1x1 + 1) * (ySegments options_1x1 + 1)
            ≤ Z.of_nat (length sample_elevations)) as H3 by (simpl; lia).
  assert ((xSegments options_1x1 + 1) * (ySegments options_1x1 + 1) * 4
            ≤ Z.of_nat (length sample_pixels)) as H4 by (simpl; lia).
  assert (Forall (λ b, 0 ≤ b ≤ 255) sample_pixels) as H5
    by (repeat constructor; lia).
  assert (minHeight options_1x1 <= maxHeight options_1x1)%Q as H6
    by discriminate.
  exact (conj H1 (conj H2 (conj H3 (conj H4 (conj H5 (conj H6
    (fromHeightmap_overwrites sample_pixels sample_elevations options_1x1
       H1 H2 H3 H4 H5 H6))))))).
Defined.

(** ** The Corner generator *)



Section CornerFacts.
Variable random : nat → Q.
Variable maxVariation : Q.
Variable options : Options.
Variable g : list Q.
Variable n : nat.

Hypothesis Hx : 0 ≤ xSegments options.
Hypothesis Hy : 0 ≤ ySegments options.
Hypothesis Hlen :
  (xSegments options + 1) * (ySegments options + 1) ≤ Z.of_nat (length g).
Hypothesis Hband : (minHeight options <= maxHeight options)%Q.


End CornerFacts.



(** ** src/core.js: toArray1D and the round trips with fromArray1D *)

Lemma floor_third (len : Z) :
  Math_floor (inject_Z len / 3)%Q = len / 3.
Proof.
  unfold Math_floor. apply Qfloor_unique.
  - apply Qle_shift_div_l; [reflexivity|].
    change 3%Q with (inject_Z 3). rewrite <- inject_Z_mult, <- Zle_Qle.
    pose proof (Z.mul_div_le len 3 ltac:(lia)). lia.
  - apply Qlt_shift_div_r; [reflexivity|].
    change 3%Q with (inject_Z 3). rewrite <- inject_Z_mult, <- Zlt_Qlt.
    pose proof (Z.mul_succ_div_gt len 3 ltac:(lia)). lia.
Qed.

Section Array1DRoundTrips.
Variable fround : Q → Q.

Lemma toArray1D_extracted (vertices : list Q) :
  ∃ tgt, toArray1D fround vertices = Ret tgt ∧
         extracted fround vertices (Z.of_nat (length vertices) / 3)
           (Z.of_nat (length vertices) / 3) tgt.
Proof.
  unfold toArray1D. rewrite floor_third.
  set (l := Z.of_nat (length vertices) / 3).
  assert (0 ≤ l) as Hl by (apply Z.div_pos; lia).
  assert (l * 3 ≤ Z.of_nat (length vertices)) as Hl3.
  { pose proof (Z.mul_div_le (Z.of_nat (length vertices)) 3 ltac:(lia)).
    unfold l. lia. }
  apply (for_loop_post (extracted fround vertices l) (λ _, False)
           (λ i, Z.to_nat (l - i))).
  - intros i tgt (Hi & Hlen & Hset) Hc. apply Z.ltb_lt in Hc. split; [lia|].
    destruct (lookup_lt_is_Some_2 vertices (Z.to_nat (i * 3 + 2))) as [v Hv];
      [lia|].
    rewrite Hv. split; [lia|]. split; [by rewrite length_insert|].
    intros k z Hk Hz. destruct (decide (k = i)) as [->|].
    + rewrite list_lookup_insert_eq by lia. congruence.
    + rewrite list_lookup_insert_ne by lia. apply Hset; [lia | done].
  - split; [lia|]. split; [rewrite length_replicate; lia|]. intros; lia.
  - lia.
  - intros i tgt Htgt Hc. apply Z.ltb_ge in Hc.
    destruct Htgt as (Hi & Htgt). by replace i with l in * by lia.
  - intros _ [].
Qed.

(** X21. [toArray1D] returns one height per whole vertex of the buffer:
    the [z] component of the vertex, as a 32-bit float. *)
Theorem toArray1D_heights (vertices : list Q) :
  ∃ tgt, toArray1D fround vertices = Ret tgt ∧
         length tgt = (length vertices / 3)%nat ∧
         ∀ i : nat, (i < length vertices / 3)%nat →
           ∃ z, vertices !! (3 * i + 2)%nat = Some z ∧
                tgt !! i = Some (fround z).
Proof.
  destruct (toArray1D_extracted vertices) as (tgt & Hrun & _ & Hlen & Hset).
  assert (Z.of_nat (length vertices) / 3 = Z.of_nat (length vertices / 3))
    as Hdiv by (by rewrite Nat2Z.inj_div).
  exists tgt. split; [done|]. split; [lia|].
  intros i Hi.
  assert (3 * (length vertices / 3) ≤ length vertices)%nat
    by (apply Nat.Div0.mul_div_le).
  destruct (lookup_lt_is_Some_2 vertices (3 * i + 2)) as [z Hz]; [lia|].
  exists z. split; [done|].
  rewrite <- (Nat2Z.id i). apply Hset; [lia|].
  by replace (Z.to_nat (Z.of_nat i * 3 + 2)) with (3 * i + 2)%nat by lia.
Qed.

(** X22. Written back with [fromArray1D], the heights that [toArray1D]
    took from a buffer leave the buffer as it was, provided the [z]
    components of the buffer are 32-bit floats already. *)
Theorem fromArray1D_toArray1D (vertices : list Q) :
  (∀ i z, vertices !! (3 * i + 2)%nat = Some z → fround z = z) →
  ∃ tgt, toArray1D fround vertices = Ret tgt ∧
         fromArray1D fround vertices tgt = Ret vertices.
Proof.
  intros Hfloat.
  destruct (toArray1D_extracted vertices) as (tgt & Hrun & _ & Hlen & Hset).
  exists tgt. split; [done|].
  destruct (fromArray1D_copied fround vertices tgt)
    as (out & -> & i & (Hi & Hlen' & Hbelow & Hframe & Hcopy) & _).
  f_equal. apply list_eq. intros k.
  assert (i ≤ Z.of_nat (length vertices) / 3) as Hi3 by lia.
  pose proof (Z.mul_div_le (Z.of_nat (length vertices)) 3 ltac:(lia)) as H3.
  pose proof (Nat.div_mod_eq k 3) as Hk.
  pose proof (Nat.mod_upper_bound k 3 ltac:(lia)) as Hk3.
  destruct (decide ((k mod 3 = 2)%nat ∧ Z.of_nat (k / 3) < i)) as [[Hm Hd]|Hnot].
  - assert (∃ j, 0 ≤ j < i ∧ k = Z.to_nat (j * 3 + 2)) as (j & Hj & Hkj)
      by (exists (Z.of_nat (k / 3)); lia).
    clear Hk Hk3 Hm Hd. subst k.
    destruct (lookup_lt_is_Some_2 vertices (Z.to_nat (j * 3 + 2))) as [z Hz];
      [lia|].
    assert (fround z = z) as Hz'.
    { apply (Hfloat (Z.to_nat j)).
      by replace (3 * Z.to_nat j + 2)%nat with (Z.to_nat (j * 3 + 2)) by lia. }
    rewrite (Hcopy j (fround z)); [| lia | apply Hset; [lia | done] | lia].
    by rewrite Hz, !Hz'.
  - apply Hframe. intros j Hj ->. apply Hnot.
    replace (Z.to_nat (j * 3 + 2)) with (2 + Z.to_nat j * 3)%nat by lia.
    rewrite Nat.Div0.mod_add, Nat.div_add by lia. simpl. lia.
Qed.

(** X23. Read with [toArray1D] from a buffer of as many vertices as there
    are heights, the heights that [fromArray1D] wrote are the heights
    given, as 32-bit floats; the conversion to a 32-bit float leaves a
    32-bit float as it is. *)
Theorem toArray1D_fromArray1D (vertices src : list Q) :
  (∀ q, fround (fround q) = fround q) →
  length vertices = (3 * length src)%nat →
  ∃ out, fromArray1D fround vertices src = Ret out ∧
         toArray1D fround out = Ret (fround <$> src).
Proof.
  intros Hidem Hlen.
  destruct (fromArray1D_copied fround vertices src)
    as (out & Hrun & i & (Hi & Hlen' & Hbelow & Hframe & Hcopy) & Hstop).
  exists out. split; [done|].
  destruct (toArray1D_extracted out) as (tgt & -> & _ & Hsize & Hset).
  assert (Z.of_nat (length out) / 3 = Z.of_nat (length src)) as Hdiv.
  { rewrite Hlen', Hlen, Nat2Z.inj_mul. rewrite Z.mul_comm.
    by rewrite Z.div_mul by lia. }
  rewrite Hdiv in Hsize, Hset.
  assert (i = Z.of_nat (length src)) as ->.
  { destruct (decide (i = Z.of_nat (length src))); [done|]. exfalso.
    apply (Qlt_irrefl (inject_Z i)). eapply Qlt_le_trans; [|exact Hstop].
    apply Q.min_glb_lt.
    - apply Qlt_shift_div_l; [reflexivity|].
      change 3%Q with (inject_Z 3). rewrite <- inject_Z_mult, <- Zlt_Qlt. lia.
    - rewrite <- Zlt_Qlt. lia. }
  f_equal. apply list_eq. intros k. rewrite list_lookup_fmap.
  destruct (src !! k) as [s|] eqn:Hs; simpl.
  - pose proof (lookup_lt_Some _ _ _ Hs) as Hk.
    rewrite <- (Nat2Z.id k).
    rewrite (Hset (Z.of_nat k) (fround s)); [by rewrite Hidem | lia |].
    apply Hcopy; [lia | by rewrite Nat2Z.id | lia].
  - apply lookup_ge_None in Hs. apply lookup_ge_None. lia.
Qed.
End Array1DRoundTrips.

(** X22 on a buffer of two vertices, the conversion being the identity. *)
Lemma fromArray1D_toArray1D_witness :
  (∀ (i : nat) (z : Q), sample_vertices !! (3 * i + 2)%nat = Some z →
                        (λ q : Q, q) z = z) ∧
  ∃ tgt, toArray1D (λ q, q) sample_vertices = Ret tgt ∧
         fromArray1D (λ q, q) sample_vertices tgt = Ret sample_vertices.
Proof.
  assert (∀ (i : nat) (z : Q), sample_vertices !! (3 * i + 2)%nat = Some z
                               → (λ q : Q, q) z = z) as H by done.
  exact (conj H (fromArray1D_toArray1D (λ q, q) sample_vertices H)).
Defined.

(** X23 on a buffer of two vertices and two heights, the conversion being
    the identity. *)
Lemma toArray1D_fromArray1D_witness :
  (∀ q : Q, (λ q : Q, q) ((λ q : Q, q) q) = (λ q : Q, q) q) ∧
  length sample_vertices = (3 * length sample_heights)%nat ∧
  ∃ out, fromArray1D (λ q, q) sample_vertices sample_heights = Ret out ∧
         toArray1D (λ q, q) out = Ret ((λ q, q) <$> sample_heights).
Proof.
  assert (∀ q : Q, (λ q : Q, q) ((λ q : Q, q) q) = (λ q : Q, q) q) as H1
    by done.
  assert (length sample_vertices = (3 * length sample_heights)%nat) as H2
    by reflexivity.
  exact (conj H1 (conj H2
    (toArray1D_fromArray1D (λ q, q) sample_vertices sample_heights H1 H2))).
Defined.
